(** * TRL4: table route transposition cipher and modified alphabet cipher

    Shallow embedding of the two C++ classes of the repository,
    [TableRouteCipher] (TableRoute/src/TableRouteCipher.cpp) and
    [modAlphaCipher] (modAlpha/src/modAlphaCipher.cpp and its header), and
    the properties of their [encrypt] / [decrypt] pairs.

    Conventions of the embedding:
    - a [throw cipher_error(msg)] is a value [Err e] of the result type, with
      one constructor of [cipher_error] per message of the source;
    - [std::string] is a list of 8-bit characters, [std::wstring] a list of
      code points ([wchar_t] as [Z]);
    - [size_t] sizes and loop counters are natural numbers; texts are assumed
      short enough for the [int] counters of the reading loops to hold
      [rows - 1] and [columns - 1] exactly;
    - a [for] loop is a [fold_left] over the list of the values its counter
      takes, in the order it takes them. *)

From Stdlib Require Import ZArith Lia Ascii String.
From stdpp Require Import base list gmap strings.

Local Open Scope Z_scope.
Local Open Scope nat_scope.

(** ** Tables: [std::vector<std::vector<T>>] accessed as [table[i][j]] *)

Section Table.
Context {A : Type} (d : A).

(** [table[i][j]] as an rvalue.  The source only reads inside the table;
    [d] is what the model returns elsewhere. *)
Definition tget (t : list (list A)) (i j : nat) : A :=
  match t !! i with
  | Some row => default d (row !! j)
  | None => d
  end.

(** [table[i][j] = x]. *)
Definition tset (t : list (list A)) (i j : nat) (x : A) : list (list A) :=
  match t !! i with
  | Some row => <[i := <[j := x]> row]> t
  | None => t
  end.

(** [std::vector<std::vector<T>>(rows, std::vector<T>(columns, x))]. *)
Definition tmake (rows columns : nat) (x : A) : list (list A) :=
  replicate rows (replicate columns x).

(** Shape of a [rows] x [columns] table. *)
Definition twf (rows columns : nat) (t : list (list A)) : Prop :=
  length t = rows /\ Forall (fun row => length row = columns) t.
End Table.

(** ** Route transposition: TableRouteCipher *)

Module TableRoute.

(** The messages thrown by the class, one constructor each:
    [InvalidKey] "Ключ должен быть положительным",
    [EmptyText] "Текст пуст", [NoLetters] "Текст не содержит букв",
    [TextTooShort] "Длина текста должна быть больше ключа (количества
    столбцов)". *)
Inductive cipher_error : Set :=
| InvalidKey
| EmptyText
| NoLetters
| TextTooShort.

Inductive result (A : Type) : Type :=
| OK (a : A)
| Err (e : cipher_error).
Arguments OK {A} a.
Arguments Err {A} e.

(** [<cctype>] in the "C" locale (the program never calls [setlocale]):
    the letters are the 52 ASCII letters, no byte above 127 is one. *)
Definition isalpha (c : ascii) : bool :=
  let n := nat_of_ascii c in
  ((65 <=? n) && (n <=? 90)) || ((97 <=? n) && (n <=? 122)).

Definition toupper (c : ascii) : ascii :=
  let n := nat_of_ascii c in
  if (97 <=? n) && (n <=? 122) then ascii_of_nat (n - 32) else c.

(** [validText[index]]. *)
Definition char_at (s : list ascii) (index : nat) : ascii :=
  default " "%char (s !! index).

Record TableRouteCipher : Set := { columns : nat }.

Definition getValidKey (key : Z) : result nat :=
  if (key <=? 0)%Z then Err InvalidKey else OK (Z.to_nat key).

Definition new (key : Z) : result TableRouteCipher :=
  match getValidKey key with
  | OK k => OK {| columns := k |}
  | Err e => Err e
  end.

Definition getValidText (text : list ascii) : result (list ascii) :=
  match text with
  | [] => Err EmptyText
  | _ =>
      let result :=
        fold_left (fun result c =>
                     if isalpha c then result ++ [toupper c] else result)
                  text [] in
      match result with
      | [] => Err NoLetters
      | _ => OK result
      end
  end.

Definition encrypt (self : TableRouteCipher) (text : list ascii)
  : result (list ascii) :=
  match getValidText text with
  | Err e => Err e
  | OK validText =>
      if length validText <=? columns self then Err TextTooShort else
      let len := length validText in
      let rows := (len + columns self - 1) / columns self in
      let table := tmake rows (columns self) " "%char in
      let '(table, _) :=
        fold_left (fun st i =>
          fold_left (fun '(table, index) j =>
                       if index <? len
                       then (tset table i j (char_at validText index),
                             S index)
                       else (table, index))
                    (seq 0 (columns self)) st)
          (seq 0 rows) (table, 0) in
      let result :=
        fold_left (fun result j =>
          fold_left (fun result i =>
                       if negb (Ascii.eqb (tget " "%char table i j) " ")
                       then result ++ [tget " "%char table i j]
                       else result)
                    (reverse (seq 0 rows)) result)
          (reverse (seq 0 (columns self))) [] in
      OK result
  end.

Definition decrypt (self : TableRouteCipher) (text : list ascii)
  : result (list ascii) :=
  match getValidText text with
  | Err e => Err e
  | OK validText =>
      if length validText <=? columns self then Err TextTooShort else
      let len := length validText in
      let rows := (len + columns self - 1) / columns self in
      let table := tmake rows (columns self) " "%char in
      let filled := tmake rows (columns self) false in
      let '(filled, _) :=
        fold_left (fun st i =>
          fold_left (fun '(filled, total_filled) j =>
                       if total_filled <? len
                       then (tset filled i j true, S total_filled)
                       else (filled, total_filled))
                    (seq 0 (columns self)) st)
          (seq 0 rows) (filled, 0) in
      let '(table, _) :=
        fold_left (fun st j =>
          fold_left (fun '(table, text_index) i =>
                       if tget false filled i j && (text_index <? len)
                       then (tset table i j (char_at validText text_index),
                             S text_index)
                       else (table, text_index))
                    (reverse (seq 0 rows)) st)
          (reverse (seq 0 (columns self))) (table, 0) in
      let result :=
        fold_left (fun result i =>
          fold_left (fun result j =>
                       if tget false filled i j
                       then result ++ [tget " "%char table i j]
                       else result)
                    (seq 0 (columns self)) result)
          (seq 0 rows) [] in
      OK result
  end.

(** The normalization in the words of the specification: strip every
    character that is not an alphabetic letter, uppercase the rest. *)
Definition normalize (text : list ascii) : list ascii :=
  map toupper (filter (fun c => isalpha c = true) text).

Definition str (s : string) : list ascii := list_ascii_of_string s.

End TableRoute.

(** ** Polyalphabetic substitution: modAlphaCipher *)

Module ModAlpha.

(** The messages thrown by the class, one constructor each:
    [EmptyKey] "Empty key", [InvalidKey] "Invalid key", [WeakKey]
    "Weak key", [EmptyOpenText] "Empty open text", [EmptyCipherText]
    "Empty cipher text", [InvalidCipherText] "Invalid cipher text".
    The specification's EmptyText kind covers both empty-text messages. *)
Inductive cipher_error : Set :=
| EmptyKey
| InvalidKey
| WeakKey
| EmptyOpenText
| EmptyCipherText
| InvalidCipherText.

Inductive result (A : Type) : Type :=
| OK (a : A)
| Err (e : cipher_error).
Arguments OK {A} a.
Arguments Err {A} e.

(** Wide character literals of the source, as code points. *)
Definition L_A : Z := 1040.       (* L'А', U+0410 *)
Definition L_YA : Z := 1071.      (* L'Я', U+042F *)
Definition L_a : Z := 1072.       (* L'а', U+0430 *)
Definition L_ya : Z := 1103.      (* L'я', U+044F *)
Definition L_YO : Z := 1025.      (* L'Ё', U+0401 *)
Definition L_yo : Z := 1105.      (* L'ё', U+0451 *)

(** [numAlpha = L"АБВГДЕЁЖЗИЙКЛМНОПРСТУФХЦЧШЩЪЫЬЭЮЯ"]. *)
Definition numAlpha : list Z :=
  [1040; 1041; 1042; 1043; 1044; 1045; 1025; 1046; 1047; 1048; 1049;
   1050; 1051; 1052; 1053; 1054; 1055; 1056; 1057; 1058; 1059; 1060;
   1061; 1062; 1063; 1064; 1065; 1066; 1067; 1068; 1069; 1070; 1071]%Z.

(** [s[i]] on a [std::wstring] and [v[i]] on a [std::vector<int>]. *)
Definition wchar_at (s : list Z) (i : nat) : Z := default 0%Z (s !! i).
Definition int_at (v : list Z) (i : nat) : Z := default 0%Z (v !! i).

(** Conversion of an [int] operand to [size_t] (64 bits) in mixed
    arithmetic, and the unsigned arithmetic's wrap-around. *)
Definition size_t_wrap (z : Z) : Z := (z mod 2 ^ 64)%Z.

Record modAlphaCipher : Type := {
  alphaNum : gmap Z Z;
  key : list Z
}.

Definition isValidChar (c : Z) : bool :=
  ((L_A <=? c)%Z && (c <=? L_YA)%Z) || ((L_a <=? c)%Z && (c <=? L_ya)%Z)
  || (c =? L_YO)%Z || (c =? L_yo)%Z.

Definition isUpperChar (c : Z) : bool :=
  ((L_A <=? c)%Z && (c <=? L_YA)%Z) || (c =? L_YO)%Z.

Definition toUpperChar (c : Z) : Z :=
  if (L_a <=? c)%Z && (c <=? L_ya)%Z then (c - L_a + L_A)%Z
  else if (c =? L_yo)%Z then L_YO
  else c.

(** The loop of [getValidKey] over [tmp]: throw at the first invalid
    character, uppercase the others in place. *)
Fixpoint validate_key (tmp : list Z) : result (list Z) :=
  match tmp with
  | [] => OK []
  | c :: rest =>
      if negb (isValidChar c) then Err InvalidKey
      else match validate_key rest with
           | OK rest' => OK (toUpperChar c :: rest')
           | Err e => Err e
           end
  end.

Definition getValidKey (s : list Z) : result (list Z) :=
  match s with
  | [] => Err EmptyKey
  | _ => validate_key s
  end.

Definition getValidOpenText (s : list Z) : result (list Z) :=
  let tmp :=
    fold_left (fun tmp c =>
                 if isValidChar c then tmp ++ [toUpperChar c] else tmp)
              s [] in
  match tmp with
  | [] => Err EmptyOpenText
  | _ => OK tmp
  end.

Definition getValidCipherText (s : list Z) : result (list Z) :=
  match s with
  | [] => Err EmptyCipherText
  | _ => if forallb isUpperChar s then OK s else Err InvalidCipherText
  end.

(** [convert(const std::wstring&)]. *)
Definition convert_s (alphaNum : gmap Z Z) (s : list Z) : list Z :=
  fold_left (fun result c =>
               match alphaNum !! c with
               | Some n => result ++ [n]
               | None => result
               end)
            s [].

(** [convert(const std::vector<int>&)]. *)
Definition convert_v (v : list Z) : list Z :=
  fold_left (fun result i =>
               if (0 <=? i)%Z && (i <? Z.of_nat (length numAlpha))%Z
               then result ++ [wchar_at numAlpha (Z.to_nat i)]
               else result)
            v [].

(** The map filled by the first loop of the constructor. *)
Definition init_alphaNum : gmap Z Z :=
  fold_left (fun m i => <[wchar_at numAlpha i := Z.of_nat i]> m)
            (seq 0 (length numAlpha)) (∅ : gmap Z Z).

(** The constructor.  The weak-key loop leaves [isWeakKey] true exactly
    when no [i >= 1] has [validKey[i] != firstChar]; it is not entered
    for a key of size at most 1, where [isWeakKey] keeps its initial
    value [true]. *)
Definition new (skey : list Z) : result modAlphaCipher :=
  let alphaNum := init_alphaNum in
  match getValidKey skey with
  | Err e => Err e
  | OK validKey =>
      let isWeakKey :=
        if 1 <? length validKey then
          let firstChar := wchar_at validKey 0 in
          forallb (fun i => (wchar_at validKey i =? firstChar)%Z)
                  (seq 1 (length validKey - 1))
        else true in
      if isWeakKey && (0 <? length validKey) then Err WeakKey
      else OK {| alphaNum := alphaNum;
                 key := convert_s alphaNum validKey |}
  end.

Definition encrypt (self : modAlphaCipher) (open_text : list Z)
  : result (list Z) :=
  match getValidOpenText open_text with
  | Err e => Err e
  | OK validText =>
      let work := convert_s (alphaNum self) validText in
      let work :=
        fold_left (fun work i =>
          <[i := (size_t_wrap
                    (int_at work i
                     + int_at (key self) (i mod length (key self)))
                  mod Z.of_nat (length numAlpha))%Z]> work)
          (seq 0 (length work)) work in
      OK (convert_v work)
  end.

Definition decrypt (self : modAlphaCipher) (cipher_text : list Z)
  : result (list Z) :=
  match getValidCipherText cipher_text with
  | Err e => Err e
  | OK validText =>
      let work := convert_s (alphaNum self) validText in
      let work :=
        fold_left (fun work i =>
          <[i := (size_t_wrap
                    (size_t_wrap (int_at work i)
                     + Z.of_nat (length numAlpha)
                     - size_t_wrap
                         (int_at (key self) (i mod length (key self))))
                  mod Z.of_nat (length numAlpha))%Z]> work)
          (seq 0 (length work)) work in
      OK (convert_v work)
  end.

(** The position of a letter in the alphabet, in the words of the
    specification ([symbolToIndex]). *)
Fixpoint position (c : Z) (alphabet : list Z) : Z :=
  match alphabet with
  | [] => 0
  | a :: rest => if (a =? c)%Z then 0 else (1 + position c rest)%Z
  end.
Definition index (c : Z) : Z := position c numAlpha.

(** The normalization of an open text in the words of the specification:
    keep the alphabet letters, uppercased. *)
Definition normalize (s : list Z) : list Z :=
  map toUpperChar (filter (fun c => isValidChar c = true) s).

End ModAlpha.

(** ** The test driver of the substitution cipher: modAlpha/src/main.cpp *)

Module ModAlphaMain.
Import ModAlpha.

(** What [check] sends to [wcout], in order: a wide string literal of the
    source (kept as its UTF-8 text), a [wstring] variable, the message of
    a caught [cipher_error] ([e.what()]), or [endl]. *)
Inductive chunk : Type :=
| Lit (s : string)
| Wide (w : list Z)
| What (e : cipher_error)
| Endl.

(** The line feed that ends the two verdict literals. *)
Definition LF : string := String (ascii_of_nat 10) EmptyString.

Section Check.
(** [std::tolower(c, locale("en_US.UTF-8"))] on a wide character; the
    locale is the one [main] has installed before it calls [check]. *)
Variable tolower : Z -> Z.

(** [check]: the value is the output appended to [wcout].  The
    [catch (const exception&)] clause is not reached: the cipher throws
    [cipher_error] only. *)
Definition check (Text key testName : list Z) (destructCipherText : bool)
  : list chunk :=
  (match new key with
   | Err e => [Lit "Ошибка cipher_error: "; What e; Endl]
   | OK cipher =>
       match encrypt cipher Text with
       | Err e => [Lit "Ошибка cipher_error: "; What e; Endl]
       | OK cipherText =>
           let cipherText :=
             if destructCipherText && negb (bool_decide (cipherText = []))
             then <[0 := tolower (wchar_at cipherText 0)]> cipherText
             else cipherText in
           match decrypt cipher cipherText with
           | Err e => [Lit "Ошибка cipher_error: "; What e; Endl]
           | OK decryptedText =>
               [Lit "=== "; Wide testName; Lit " ==="; Endl;
                Lit "Ключ: "; Wide key; Endl;
                Lit "Исходный текст: "; Wide Text; Endl;
                Lit "Зашифрованный: "; Wide cipherText; Endl;
                Lit "Расшифрованный: "; Wide decryptedText; Endl;
                if bool_decide (Text = decryptedText)
                then Lit ("[OK] Тест пройден" ++ LF)
                else Lit ("[ERROR] Ошибка!" ++ LF)]
           end
       end
   end) ++ [Endl].
End Check.

End ModAlphaMain.

(** * Vocabulary of the properties *)

(** ** Loops over the cells of a table *)

(** The cells visited by a pair of nested loops, in visiting order. *)
Definition cells_by_rows (rows cols : list nat) : list (nat * nat) :=
  rows ≫= (fun i => (fun j => (i, j)) <$> cols).
Definition cells_by_cols (cols rows : list nat) : list (nat * nat) :=
  cols ≫= (fun j => (fun i => (i, j)) <$> rows).

(** A writing loop: the cells that pass the test [P] receive the values
    [val 0], [val 1], ... in visiting order, as long as the counter is
    below [n]. *)
Section Passes.
Context {A : Type} (P : nat -> nat -> bool) (val : nat -> A) (n : nat).

Definition put (st : list (list A) * nat) (ij : nat * nat)
  : list (list A) * nat :=
  if P ij.1 ij.2 && (st.2 <? n)
  then (tset st.1 ij.1 ij.2 (val st.2), Datatypes.S st.2)
  else st.

Definition passing (cells : list (nat * nat)) : list (nat * nat) :=
  filter (fun ij => P ij.1 ij.2 = true) cells.
End Passes.

(** ** The grid of the route cipher *)

Section GridCells.
Variables r c n : nat.

(** Cells in the order of the writing loop of [encrypt]: row by row. *)
Definition rowmajor : list (nat * nat) :=
  cells_by_rows (seq 0 r) (seq 0 c).

(** Cells in the order of the reading loop of [encrypt]: columns from
    right to left, each from bottom to top. *)
Definition route : list (nat * nat) :=
  cells_by_cols (reverse (seq 0 c)) (reverse (seq 0 r)).

(** Number of the cell in the row-by-row order. *)
Definition lin (ij : nat * nat) : nat := ij.1 * c + ij.2.

(** The cells filled by a text of [n] characters. *)
Definition filled_cell (ij : nat * nat) : Prop := lin ij < n.

#[global] Instance filled_cell_dec (ij : nat * nat)
  : Decision (filled_cell ij) := Nat.lt_dec (lin ij) n.
End GridCells.

(** ** Route transposition *)

Module TableRouteSpec.
Import TableRoute.

(** The check run over the 256 characters: uppercasing a letter gives an
    uppercase letter, which is never the blank of the table. *)
Definition upper_ok (c : ascii) : bool :=
  implb (isalpha c)
        (isalpha (toupper c)
         && Ascii.eqb (toupper (toupper c)) (toupper c)
         && negb (Ascii.eqb (toupper c) " ")).

(** What [getValidText] returns: uppercase letters only. *)
Definition valid_char (c : ascii) : Prop :=
  isalpha c = true /\ toupper c = c.

(** The test of a loop that writes every cell it visits. *)
Definition always (_ _ : nat) : bool := true.

(** [rows = (length + columns - 1) / columns]. *)
Definition rows_of (n c : nat) : nat := (n + c - 1) / c.

(** The letters of [v], laid out row by row in [c] columns, listed along
    the route. *)
Definition letters_by_route (c : nat) (v : list ascii) : list ascii :=
  (fun ij => char_at v (lin c ij))
    <$> filter (filled_cell c (length v))
               (route (rows_of (length v) c) c).

End TableRouteSpec.

(** ** Polyalphabetic substitution *)

Module ModAlphaSpec.
Import ModAlpha.

Local Open Scope Z_scope.

(** The letter at a position of the alphabet: [numAlpha[i]]. *)
Definition letter (n : Z) : Z := wchar_at numAlpha (Z.to_nat n).

(** A position of the alphabet. *)
Definition in_alphabet (n : Z) : Prop := 0 <= n < 33.

(** Every uppercase letter is in [alphaNum], at its position. *)
Definition upper_check (c : Z) : bool :=
  bool_decide (init_alphaNum !! c = Some (index c))
  && (0 <=? index c) && (index c <? 33)
  && (letter (index c) =? c).

(** Every position holds an uppercase letter, whose index it is. *)
Definition index_check (n : Z) : bool :=
  isUpperChar (letter n) && (index (letter n) =? n).

(** The right-hand sides of the assignments to [work[i]] in [encrypt]
    and [decrypt], for [work[i] = w] and [key[i % key.size()] = k]. *)
Definition enc (w k : Z) : Z :=
  size_t_wrap (w + k) mod Z.of_nat (length numAlpha).

Definition dec (w k : Z) : Z :=
  size_t_wrap (size_t_wrap w + Z.of_nat (length numAlpha) - size_t_wrap k)
  mod Z.of_nat (length numAlpha).

(** An uppercase letter of the alphabet. *)
Definition upper (c : Z) : Prop := isUpperChar c = true.

(** What the constructor establishes. *)
Definition key_ok (self : modAlphaCipher) : Prop :=
  alphaNum self = init_alphaNum
  /\ key self <> []
  /\ Forall in_alphabet (key self).

(** [key[i % key.size()]]. *)
Definition key_at (self : modAlphaCipher) (i : nat) : Z :=
  int_at (key self) (i mod length (key self))%nat.

(** The formulas of the specification for the two directions, applied
    position by position. *)
Definition encrypt_letters (self : modAlphaCipher) (t : list Z) : list Z :=
  imap (fun i c => letter ((index c + key_at self i) mod 33)) t.

Definition decrypt_letters (self : modAlphaCipher) (t : list Z) : list Z :=
  imap (fun i c => letter ((index c + 33 - key_at self i) mod 33)) t.

(** All the characters of a validated key are its first character. *)
Definition all_same (validKey : list Z) : Prop :=
  Forall (fun c => c = wchar_at validKey 0) validKey.

(** The keys of the examples: "А", "ААА" (Cyrillic), "AAA" (Latin) and
    "КЛЮЧ", and two texts. *)
Definition key_A : list Z := [L_A].
Definition key_AAA : list Z := [L_A; L_A; L_A].
Definition key_latin_AAA : list Z := [65; 65; 65].
Definition key_KLYUCH : list Z := [1050; 1051; 1070; 1063].
Definition cipher_KLYUCH : modAlphaCipher :=
  {| alphaNum := init_alphaNum; key := [11; 12; 31; 24] |}.
(** "Привет, мир" *)
Definition text_privet : list Z :=
  [1055; 1088; 1080; 1074; 1077; 1090; 44; 32; 1084; 1080; 1088].
(** "ЪЬЖЩПЮ", the ciphertext of "ПРИВЕТ" under "КЛЮЧ" *)
Definition text_cipher : list Z := [1066; 1068; 1046; 1065; 1055; 1070].

End ModAlphaSpec.

(** ** Route transposition: the reading by columns *)

Module TableRouteColumns.
Import TableRoute TableRouteSpec.

(** Column [j] of the table from top to bottom: the letters of [v] at the
    positions [j], [j + c], [j + 2c], ... *)
Definition column (c : nat) (v : list ascii) (j : nat) : list ascii :=
  (fun i => char_at v (i * c + j))
    <$> filter (fun i => i * c + j < length v)
               (seq 0 (rows_of (length v) c)).

(** The reading in the words of the class documentation: by columns from
    right to left, each column from bottom to top. *)
Definition read_columns (c : nat) (v : list ascii) : list ascii :=
  reverse (seq 0 c) ≫= (fun j => reverse (column c v j)).

(** An uppercase ASCII letter, ['A'] to ['Z']. *)
Definition upper_ascii (ch : ascii) : Prop :=
  65 <= nat_of_ascii ch <= 90.

End TableRouteColumns.

(** ** Polyalphabetic substitution: keys *)

Module ModAlphaKeys.
Import ModAlpha ModAlphaSpec.

Local Open Scope Z_scope.

(** The sum of two keys, position by position, modulo the size of the
    alphabet. *)
Definition sum_key (k1 k2 : list Z) : list Z :=
  zip_with (fun a b => (a + b) mod 33) k1 k2.

(** The cipher the constructor builds from a validated key. *)
Definition cipher_of (validKey : list Z) : modAlphaCipher :=
  {| alphaNum := init_alphaNum; key := index <$> validKey |}.

End ModAlphaKeys.

(** ** The test driver: what it prints *)

Module ModAlphaMainSpec.
Import ModAlpha ModAlphaMain.

(** The output of [check] when a [cipher_error] is caught. *)
Definition failure (e : cipher_error) : list chunk :=
  [Lit "Ошибка cipher_error: "; What e; Endl; Endl].

(** The output of [check] when nothing is thrown: the five lines of the
    report, then the verdict, [passed] or not. *)
Definition report (testName key Text cipherText decryptedText : list Z)
           (passed : bool) : list chunk :=
  [Lit "=== "; Wide testName; Lit " ==="; Endl;
   Lit "Ключ: "; Wide key; Endl;
   Lit "Исходный текст: "; Wide Text; Endl;
   Lit "Зашифрованный: "; Wide cipherText; Endl;
   Lit "Расшифрованный: "; Wide decryptedText; Endl;
   if passed then Lit ("[OK] Тест пройден" ++ LF)
   else Lit ("[ERROR] Ошибка!" ++ LF);
   Endl].

(** Lowercasing of the uppercase letters of the alphabet, as the
    en_US.UTF-8 locale does it. *)
Definition lower_ru (c : Z) : Z :=
  if (c =? L_YO)%Z then L_yo
  else if (L_A <=? c)%Z && (c <=? L_YA)%Z then (c + 32)%Z
  else c.

End ModAlphaMainSpec.

(** * Properties *)

(** ** Tables and the loops over their cells *)

Section TableFacts.
Context {A : Type} (d : A).
Implicit Types t : list (list A).

Lemma twf_tmake r c (x : A) : twf r c (tmake r c x).
Proof.
  split; [apply length_replicate|].
  apply Forall_forall. intros row Hin.
  apply elem_of_replicate in Hin as [-> _]. apply length_replicate.
Qed.

Lemma twf_tset r c t i j x : twf r c t -> twf r c (tset t i j x).
Proof.
  intros [Hlen Hrows]. unfold tset.
  destruct (t !! i) as [row|] eqn:Hrow; [|by split].
  split; [by rewrite length_insert|].
  apply Forall_insert; [done|]. rewrite length_insert.
  by apply (Forall_lookup_1 _ _ _ _ Hrows Hrow).
Qed.

Lemma tget_tmake r c (x : A) i j :
  i < r -> j < c -> tget d (tmake r c x) i j = x.
Proof.
  intros Hi Hj. unfold tget, tmake.
  rewrite lookup_replicate_2 by done. by rewrite lookup_replicate_2.
Qed.

Lemma tget_tset_eq r c t i j x :
  twf r c t -> i < r -> j < c -> tget d (tset t i j x) i j = x.
Proof.
  intros [Hlen Hrows] Hi Hj. unfold tget, tset.
  destruct (lookup_lt_is_Some_2 t i) as [row Hrow]; [lia|].
  rewrite Hrow, list_lookup_insert_eq by lia.
  rewrite list_lookup_insert_eq; [done|].
  by rewrite (Forall_lookup_1 _ _ _ _ Hrows Hrow).
Qed.

Lemma tget_tset_ne t i j i' j' x :
  (i, j) <> (i', j') -> tget d (tset t i j x) i' j' = tget d t i' j'.
Proof.
  intros Hne. unfold tget, tset.
  destruct (t !! i) as [row|] eqn:Hrow; [|done].
  destruct (decide (i = i')) as [<-|Hi].
  - assert (j <> j') by congruence.
    rewrite Hrow, list_lookup_insert_eq by (by eapply lookup_lt_Some).
    by rewrite list_lookup_insert_ne.
  - by rewrite list_lookup_insert_ne.
Qed.
End TableFacts.

Section Loops.
Context {S : Type}.

Lemma fold_left_fmap {B C} (g : B -> C) (f : S -> C -> S) l s :
  fold_left f (g <$> l) s = fold_left (fun s b => f s (g b)) l s.
Proof. revert s. induction l as [|b l IH]; intros s; simpl; auto. Qed.

Lemma fold_rows (f : S -> nat -> nat -> S) rows cols s :
  fold_left (fun s i => fold_left (fun s j => f s i j) cols s) rows s
  = fold_left (fun s ij => f s ij.1 ij.2) (cells_by_rows rows cols) s.
Proof.
  unfold cells_by_rows. revert s.
  induction rows as [|i rows IH]; intros s; [done|]. csimpl.
  rewrite fold_left_app, fold_left_fmap. simpl. apply IH.
Qed.

Lemma fold_cols (f : S -> nat -> nat -> S) cols rows s :
  fold_left (fun s j => fold_left (fun s i => f s i j) rows s) cols s
  = fold_left (fun s ij => f s ij.1 ij.2) (cells_by_cols cols rows) s.
Proof.
  unfold cells_by_cols. revert s.
  induction cols as [|j cols IH]; intros s; [done|]. csimpl.
  rewrite fold_left_app, fold_left_fmap. simpl. apply IH.
Qed.
End Loops.

(** The table after a writing loop: the [m]-th passing cell holds the
    [m]-th value, the cells the loop did not write are unchanged. *)
Section Scatter.
Context {A : Type} (d : A).
Context (P : nat -> nat -> bool) (val : nat -> A) (n : nat).

Lemma scatter_spec r c cells : forall t k,
  twf r c t ->
  Forall (fun ij => ij.1 < r /\ ij.2 < c) cells ->
  NoDup cells ->
  let st' := fold_left (put P val n) cells (t, k) in
  twf r c st'.1
  /\ (forall m i j, passing P cells !! m = Some (i, j) -> k + m < n ->
                   tget d st'.1 i j = val (k + m))
  /\ (forall i j,
        (forall m, passing P cells !! m = Some (i, j) -> n <= k + m) ->
        tget d st'.1 i j = tget d t i j).
Proof.
  induction cells as [|[a b] cells IH]; intros t k Hwf Hin Hnd; simpl.
  { split; [done|]. split; [|done]. intros m i j Hm. by destruct m. }
  apply Forall_cons in Hin as [[Ha Hb] Hin]. simpl in Ha, Hb.
  apply NoDup_cons in Hnd as [Hab Hnd].
  change (put P val n (t, k) (a, b))
    with (if P a b && (k <? n)
          then (tset t a b (val k), Datatypes.S k) else (t, k)).
  unfold passing. destruct (P a b) eqn:HP; simpl.
  2:{ rewrite filter_cons_False by (simpl; congruence).
      by apply IH. }
  rewrite filter_cons_True by done.
  destruct (Nat.ltb_spec k n) as [Hk|Hk].
  - destruct (IH (tset t a b (val k)) (Datatypes.S k)) as (Hw & Hw2 & Hw3);
      [by apply twf_tset|done|done|].
    split; [done|]. split.
    + intros [|m] i j Hm Hlt; simpl in Hm.
      * injection Hm as <- <-. rewrite Hw3.
        { rewrite Nat.add_0_r. by eapply tget_tset_eq. }
        intros m Hm. exfalso. apply Hab.
        apply list_elem_of_lookup_2 in Hm.
        by apply list_elem_of_filter in Hm as [_ ?].
      * replace (k + Datatypes.S m) with (Datatypes.S k + m) by lia.
        apply Hw2; [done|lia].
    + intros i j Hout. rewrite Hw3.
      * apply tget_tset_ne. intros [= -> ->].
        specialize (Hout 0 eq_refl). lia.
      * intros m Hm. specialize (Hout (Datatypes.S m) Hm). lia.
  - destruct (IH t k) as (Hw & Hw2 & Hw3); [done..|].
    split; [done|]. split.
    + intros m i j _ Hlt. lia.
    + intros i j _. apply Hw3. intros m _. lia.
Qed.
End Scatter.

(** A reading loop: the values [g] of the cells that pass the test [Q],
    appended in visiting order. *)
Lemma gather_spec {A} (Q : nat -> nat -> bool) (g : nat -> nat -> A) cells :
  forall res,
    fold_left (fun res ij => if Q ij.1 ij.2 then res ++ [g ij.1 ij.2] else res)
              cells res
    = res ++ ((fun ij => g ij.1 ij.2) <$>
                filter (fun ij => Q ij.1 ij.2 = true) cells).
Proof.
  induction cells as [|[a b] cells IH]; intros res; simpl.
  { by rewrite app_nil_r. }
  rewrite IH. destruct (Q a b) eqn:HQ.
  - rewrite filter_cons_True by done. by rewrite <- app_assoc.
  - rewrite filter_cons_False by (simpl; congruence). done.
Qed.

(** ** The grid of the route cipher *)

Section ListFacts.
Context {A B : Type}.

Lemma filter_ext_elem (P Q : A -> Prop)
      `{!forall x, Decision (P x), !forall x, Decision (Q x)} (l : list A) :
  (forall x, x ∈ l -> P x <-> Q x) -> filter P l = filter Q l.
Proof.
  induction l as [|a l IH]; intros Hext; [done|].
  assert (filter P l = filter Q l) as Hl.
  { apply IH. intros x Hx. apply Hext. by right. }
  destruct (decide (P a)) as [Ha|Ha].
  - rewrite !filter_cons_True; [by rewrite Hl| |done].
    apply Hext; [by left|done].
  - rewrite !filter_cons_False; [done| |done].
    intros Hq. apply Ha, Hext; [by left|done].
Qed.

Lemma filter_fmap_comm (f : A -> B) (P : B -> Prop)
      `{!forall y, Decision (P y)} (l : list A) :
  filter P (f <$> l) = f <$> filter (fun x => P (f x)) l.
Proof.
  induction l as [|a l IH]; [done|]. csimpl.
  destruct (decide (P (f a))).
  - rewrite !filter_cons_True by done. csimpl. by rewrite IH.
  - rewrite !filter_cons_False by done. done.
Qed.

Lemma fmap_ext_elem (f g : A -> B) (l : list A) :
  (forall x, x ∈ l -> f x = g x) -> f <$> l = g <$> l.
Proof.
  intros Hext. apply list_fmap_ext. intros i x Hx.
  apply Hext. by eapply list_elem_of_lookup_2.
Qed.
End ListFacts.

Lemma filter_lt_seq (a b len : nat) :
  filter (fun m => m < b) (seq a len) = seq a (min (b - a) len).
Proof.
  revert a. induction len as [|len IH]; intros a; simpl.
  { by rewrite Nat.min_0_r. }
  destruct (decide (a < b)) as [Hlt|Hge].
  - rewrite filter_cons_True, IH by done.
    replace (b - a) with (Datatypes.S (b - Datatypes.S a)) by lia. done.
  - rewrite filter_cons_False, IH by done.
    replace (b - a) with 0 by lia. replace (b - Datatypes.S a) with 0 by lia.
    done.
Qed.

Lemma fmap_lookup_seq {A} (dflt : A) (l : list A) :
  (fun m => default dflt (l !! m)) <$> seq 0 (length l) = l.
Proof.
  apply list_eq. intros i. rewrite list_lookup_fmap.
  destruct (decide (i < length l)) as [Hi|Hi].
  - rewrite lookup_seq_lt by done. simpl.
    destruct (lookup_lt_is_Some_2 l i Hi) as [x Hx]. by rewrite Hx.
  - rewrite lookup_seq_ge, lookup_ge_None_2 by lia. done.
Qed.

Section Grid.
Variables r c : nat.

Lemma lin_rows a k :
  lin c <$> cells_by_rows (seq a k) (seq 0 c) = seq (a * c) (k * c).
Proof.
  unfold cells_by_rows. revert a.
  induction k as [|k IH]; intros a; [done|]. csimpl.
  rewrite fmap_app, IH, <- list_fmap_compose.
  replace (lin c ∘ (fun j => (a, j))) with (Nat.add (a * c)) by done.
  rewrite fmap_add_seq, Nat.add_0_r.
  rewrite (seq_app c (k * c) (a * c)). do 2 f_equal. lia.
Qed.

Lemma lin_rowmajor : lin c <$> rowmajor r c = seq 0 (r * c).
Proof. apply (lin_rows 0 r). Qed.

Lemma elem_of_rowmajor i j : (i, j) ∈ rowmajor r c <-> i < r /\ j < c.
Proof.
  unfold rowmajor, cells_by_rows. rewrite list_elem_of_bind. split.
  - intros (i' & Hj & Hi).
    apply list_elem_of_fmap in Hj as (j' & [= -> ->] & Hj).
    apply elem_of_seq in Hi, Hj. lia.
  - intros [Hi Hj]. exists i. split; [|apply elem_of_seq; lia].
    apply list_elem_of_fmap. exists j. split; [done|apply elem_of_seq; lia].
Qed.

Lemma elem_of_route i j : (i, j) ∈ route r c <-> i < r /\ j < c.
Proof.
  unfold route, cells_by_cols. rewrite list_elem_of_bind. split.
  - intros (j' & Hi & Hj).
    apply list_elem_of_fmap in Hi as (i' & [= -> ->] & Hi).
    apply elem_of_reverse, elem_of_seq in Hi, Hj. lia.
  - intros [Hi Hj]. exists j. split; [|apply elem_of_reverse, elem_of_seq; lia].
    apply list_elem_of_fmap. exists i.
    split; [done|apply elem_of_reverse, elem_of_seq; lia].
Qed.

Lemma NoDup_rowmajor : NoDup (rowmajor r c).
Proof. apply (NoDup_fmap_1 (lin c)). rewrite lin_rowmajor. apply NoDup_seq. Qed.

Lemma NoDup_route : NoDup (route r c).
Proof.
  unfold route, cells_by_cols. apply NoDup_bind.
  - intros j1 j2 [i j] _ _ H1 H2.
    apply list_elem_of_fmap in H1 as (? & [= _ ->] & _).
    apply list_elem_of_fmap in H2 as (? & [= _ ->] & _). done.
  - intros j _. apply NoDup_fmap_2_strong.
    + intros ? ? _ _ [= ->]. done.
    + rewrite reverse_Permutation. apply NoDup_seq.
  - rewrite reverse_Permutation. apply NoDup_seq.
Qed.

Lemma route_rowmajor : route r c ≡ₚ rowmajor r c.
Proof.
  apply NoDup_Permutation; [apply NoDup_route|apply NoDup_rowmajor|].
  intros [i j]. by rewrite elem_of_route, elem_of_rowmajor.
Qed.

Lemma in_range_route :
  Forall (fun ij : nat * nat => ij.1 < r /\ ij.2 < c) (route r c).
Proof. apply Forall_forall. intros [i j]. apply elem_of_route. Qed.

Lemma in_range_rowmajor :
  Forall (fun ij : nat * nat => ij.1 < r /\ ij.2 < c) (rowmajor r c).
Proof. apply Forall_forall. intros [i j]. apply elem_of_rowmajor. Qed.

(** A cell is found in [rowmajor] at its number. *)
Lemma rowmajor_lookup m i j :
  rowmajor r c !! m = Some (i, j) -> m = lin c (i, j).
Proof.
  intros Hm.
  assert ((lin c <$> rowmajor r c) !! m = Some (lin c (i, j))) as H.
  { by rewrite list_lookup_fmap, Hm. }
  rewrite lin_rowmajor in H. apply lookup_seq in H. lia.
Qed.

Variable n : nat.
Hypothesis n_fits : n <= r * c.

Lemma lin_filled_rowmajor :
  lin c <$> filter (filled_cell c n) (rowmajor r c) = seq 0 n.
Proof.
  assert (lin c <$> filter (filled_cell c n) (rowmajor r c)
          = filter (fun m => m < n) (lin c <$> rowmajor r c)) as ->.
  { exact (eq_sym (filter_fmap_comm (lin c) (fun m => m < n) (rowmajor r c))). }
  rewrite lin_rowmajor.
  rewrite filter_lt_seq. f_equal. lia.
Qed.

Lemma length_filled_route : length (filter (filled_cell c n) (route r c)) = n.
Proof.
  rewrite route_rowmajor, <- (length_fmap (lin c)), lin_filled_rowmajor.
  apply length_seq.
Qed.
End Grid.

(** ** Route transposition: validation and the two table passes *)

Module TableRouteFacts.
Import TableRoute TableRouteSpec.

Lemma fold_left_ext {S B} (f g : S -> B -> S) l s :
  (forall s x, f s x = g s x) -> fold_left f l s = fold_left g l s.
Proof.
  intros Hfg. revert s. induction l as [|x l IH]; intros s; simpl; [done|].
  by rewrite Hfg, IH.
Qed.

Lemma filter_all {B} (P : B -> Prop) `{!forall x, Decision (P x)} (l : list B) :
  (forall x, x ∈ l -> P x) -> filter P l = l.
Proof.
  induction l as [|x l IH]; intros Hall; [done|].
  rewrite filter_cons_True by (apply Hall; by left).
  f_equal. apply IH. intros y Hy. apply Hall. by right.
Qed.

(** *** Characters *)

Lemma upper_ok_all c : upper_ok c = true.
Proof. destruct c as [[] [] [] [] [] [] [] []]; vm_compute; reflexivity. Qed.

Lemma valid_char_toupper c : isalpha c = true -> valid_char (toupper c).
Proof.
  intros Hc. pose proof (upper_ok_all c) as H. unfold upper_ok in H.
  rewrite Hc in H. simpl in H.
  apply andb_true_iff in H as [H _]. apply andb_true_iff in H as [H1 H2].
  split; [done|]. by apply Ascii.eqb_eq.
Qed.

Lemma valid_char_not_blank c : valid_char c -> c <> " "%char.
Proof. intros [Hc _] ->. vm_compute in Hc. discriminate. Qed.

Lemma normalize_valid text : Forall valid_char (normalize text).
Proof.
  unfold normalize. apply Forall_fmap, Forall_forall. intros c Hc.
  apply list_elem_of_filter in Hc as [Hc _]. by apply valid_char_toupper.
Qed.

Lemma normalize_fixed v : Forall valid_char v -> normalize v = v.
Proof.
  intros Hv. unfold normalize. rewrite filter_all.
  - rewrite <- (list_fmap_id v) at 2. apply fmap_ext_elem.
    intros c Hc. by apply (proj1 (Forall_forall _ _) Hv c Hc).
  - intros c Hc. by apply (proj1 (Forall_forall _ _) Hv c Hc).
Qed.

(** *** [getValidText] *)

Lemma getValidText_loop text : forall acc,
  fold_left (fun result c =>
               if isalpha c then result ++ [toupper c] else result)
            text acc
  = acc ++ normalize text.
Proof.
  unfold normalize.
  induction text as [|c text IH]; intros acc; simpl.
  { by rewrite app_nil_r. }
  rewrite IH. destruct (isalpha c) eqn:Hc.
  - rewrite filter_cons_True by done. csimpl. by rewrite <- app_assoc.
  - rewrite filter_cons_False by congruence. done.
Qed.

Lemma getValidText_spec text :
  getValidText text =
    match text with
    | [] => Err EmptyText
    | _ => match normalize text with
           | [] => Err NoLetters
           | v => OK v
           end
    end.
Proof.
  unfold getValidText. destruct text as [|c text]; [done|].
  rewrite (getValidText_loop (c :: text) []). cbn [app].
  by destruct (normalize (c :: text)).
Qed.

Lemma getValidText_OK text v :
  getValidText text = OK v <-> normalize text = v /\ v <> [].
Proof.
  rewrite getValidText_spec. destruct text as [|c text].
  - split; [done|]. intros [<- H]. done.
  - destruct (normalize (c :: text)) as [|x v'] eqn:Hn.
    + split; [done|]. intros [<- H]. done.
    + split; [by intros [= <-]|]. by intros [<- _].
Qed.

Lemma getValidText_fixed v :
  Forall valid_char v -> v <> [] -> getValidText v = OK v.
Proof. intros Hv Hne. apply getValidText_OK. by rewrite normalize_fixed. Qed.

Lemma rows_fit n c : 0 < c -> n <= (n + c - 1) / c * c.
Proof.
  intros Hc. pose proof (Nat.div_mod_eq (n + c - 1) c) as Hdiv.
  pose proof (Nat.mod_upper_bound (n + c - 1) c) as Hmod.
  rewrite (Nat.mul_comm _ c). lia.
Qed.

(** *** The loops of [encrypt] and [decrypt] as table passes *)

Lemma row_fill_loop {A} (val : nat -> A) n r c st :
  fold_left (fun st i =>
    fold_left (fun '(table, index) j =>
                 if index <? n
                 then (tset table i j (val index), Datatypes.S index)
                 else (table, index))
              (seq 0 c) st)
    (seq 0 r) st
  = fold_left (put always val n) (rowmajor r c) st.
Proof.
  transitivity
    (fold_left (fun s i =>
                  fold_left (fun s j => put always val n s (i, j)) (seq 0 c) s)
               (seq 0 r) st).
  { apply fold_left_ext. intros s i. apply fold_left_ext. by intros [t k] j. }
  unfold rowmajor.
  rewrite (fold_rows (fun s i j => put always val n s (i, j))).
  apply fold_left_ext. by intros s [i j].
Qed.

Lemma col_write_loop {A} (P : nat -> nat -> bool) (val : nat -> A) n r c st :
  fold_left (fun st j =>
    fold_left (fun '(table, text_index) i =>
                 if P i j && (text_index <? n)
                 then (tset table i j (val text_index),
                       Datatypes.S text_index)
                 else (table, text_index))
              (reverse (seq 0 r)) st)
    (reverse (seq 0 c)) st
  = fold_left (put P val n) (route r c) st.
Proof.
  transitivity
    (fold_left (fun s j =>
                  fold_left (fun s i => put P val n s (i, j))
                            (reverse (seq 0 r)) s)
               (reverse (seq 0 c)) st).
  { apply fold_left_ext. intros s j. apply fold_left_ext. by intros [t k] i. }
  unfold route.
  rewrite (fold_cols (fun s i j => put P val n s (i, j))).
  apply fold_left_ext. by intros s [i j].
Qed.

Lemma col_read_loop {A} (Q : nat -> nat -> bool) (g : nat -> nat -> A) r c :
  fold_left (fun result j =>
    fold_left (fun result i =>
                 if Q i j then result ++ [g i j] else result)
              (reverse (seq 0 r)) result)
    (reverse (seq 0 c)) []
  = (fun ij => g ij.1 ij.2)
      <$> filter (fun ij => Q ij.1 ij.2 = true) (route r c).
Proof.
  unfold route.
  rewrite (fold_cols (fun res i j => if Q i j then res ++ [g i j] else res)).
  by rewrite gather_spec.
Qed.

Lemma row_read_loop {A} (Q : nat -> nat -> bool) (g : nat -> nat -> A) r c :
  fold_left (fun result i =>
    fold_left (fun result j =>
                 if Q i j then result ++ [g i j] else result)
              (seq 0 c) result)
    (seq 0 r) []
  = (fun ij => g ij.1 ij.2)
      <$> filter (fun ij => Q ij.1 ij.2 = true) (rowmajor r c).
Proof.
  unfold rowmajor.
  rewrite (fold_rows (fun res i j => if Q i j then res ++ [g i j] else res)).
  by rewrite gather_spec.
Qed.

(** The table after the row-by-row writing loop: the first [n] cells
    hold [val 0 .. val (n-1)], the others keep their initial value. *)
Lemma row_fill_get {A} (d x0 : A) (val : nat -> A) n r c i j :
  i < r -> j < c ->
  tget d (fold_left (put always val n) (rowmajor r c) (tmake r c x0, 0)).1 i j
  = if lin c (i, j) <? n then val (lin c (i, j)) else x0.
Proof.
  intros Hi Hj.
  destruct (scatter_spec d always val n r c (rowmajor r c) (tmake r c x0) 0)
    as (_ & Hin & Hout).
  { apply twf_tmake. }
  { apply in_range_rowmajor. }
  { apply NoDup_rowmajor. }
  assert (passing always (rowmajor r c) = rowmajor r c) as Hpass.
  { apply filter_all. by intros. }
  rewrite Hpass in Hin, Hout.
  destruct (list_elem_of_lookup_1 (rowmajor r c) (i, j)) as [m Hm].
  { by apply elem_of_rowmajor. }
  pose proof (rowmajor_lookup r c _ _ _ Hm) as ->.
  destruct (Nat.ltb_spec (lin c (i, j)) n) as [Hlt|Hge].
  - by apply (Hin _ _ _ Hm).
  - rewrite Hout; [by apply tget_tmake|].
    intros m' Hm'. apply rowmajor_lookup in Hm'. simpl. lia.
Qed.

(** *** What [encrypt] computes on a validated text *)

Lemma char_at_valid v m :
  Forall valid_char v -> m < length v -> valid_char (char_at v m).
Proof.
  intros Hv Hm. unfold char_at.
  destruct (lookup_lt_is_Some_2 v m Hm) as [x Hx]. rewrite Hx. simpl.
  by apply (Forall_lookup_1 _ _ _ _ Hv Hx).
Qed.

Lemma encrypt_valid self text v :
  getValidText text = OK v ->
  0 < columns self < length v ->
  encrypt self text = OK (letters_by_route (columns self) v).
Proof.
  intros Hv [Hc Hlen].
  assert (Forall valid_char v) as Hvalid.
  { apply getValidText_OK in Hv as [<- _]. apply normalize_valid. }
  unfold encrypt. rewrite Hv.
  destruct (Nat.leb_spec (length v) (columns self)) as [?|_]; [lia|].
  cbv zeta. rewrite row_fill_loop.
  set (c := columns self). set (n := length v).
  set (r := (n + c - 1) / c).
  pose proof (fun i j => row_fill_get " "%char " "%char (char_at v) n r c i j)
    as Hget.
  destruct (fold_left _ (rowmajor r c) _) as [t k]. simpl in Hget.
  rewrite (col_read_loop
             (fun i j => negb (Ascii.eqb (tget " "%char t i j) " "))
             (tget " "%char t)).
  f_equal. unfold letters_by_route. fold n. unfold rows_of. fold r.
  rewrite (filter_ext_elem _ (filled_cell c n)).
  - apply fmap_ext_elem. intros [i j] Hij.
    apply list_elem_of_filter in Hij as [Hfill Hij].
    apply elem_of_route in Hij as [Hi Hj]. simpl.
    rewrite Hget by done. unfold filled_cell in Hfill.
    by destruct (Nat.ltb_spec (lin c (i, j)) n); [|lia].
  - intros [i j] Hij. apply elem_of_route in Hij as [Hi Hj]. simpl.
    rewrite Hget by done. unfold filled_cell.
    destruct (Nat.ltb_spec (lin c (i, j)) n) as [Hlt|Hge].
    + split; [done|]. intros _. apply negb_true_iff, Ascii.eqb_neq.
      by apply valid_char_not_blank, char_at_valid.
    + split; [|lia]. by rewrite Ascii.eqb_refl.
Qed.

Lemma length_letters_by_route c v :
  0 < c -> length (letters_by_route c v) = length v.
Proof.
  intros Hc. unfold letters_by_route. rewrite length_fmap.
  apply length_filled_route, rows_fit, Hc.
Qed.

(** [encrypt] only rearranges the letters. *)
Lemma letters_by_route_perm c v :
  0 < c -> letters_by_route c v ≡ₚ v.
Proof.
  intros Hc. unfold letters_by_route.
  rewrite route_rowmajor.
  rewrite (list_fmap_compose (lin c) (char_at v) _
           : (fun ij => char_at v (lin c ij)) <$> _ = _).
  rewrite lin_filled_rowmajor by (by apply rows_fit).
  replace (char_at v <$> seq 0 (length v)) with v; [done|].
  symmetry. apply (fmap_lookup_seq " "%char v).
Qed.

Lemma letters_by_route_valid c v :
  0 < c -> Forall valid_char v -> Forall valid_char (letters_by_route c v).
Proof.
  intros Hc Hv. by rewrite letters_by_route_perm.
Qed.

(** *** What [decrypt] computes on the output of [encrypt] *)

Lemma decrypt_letters_by_route self v :
  Forall valid_char v ->
  0 < columns self < length v ->
  decrypt self (letters_by_route (columns self) v) = OK v.
Proof.
  intros Hv [Hc Hlen].
  set (c := columns self) in *. set (n := length v) in *.
  set (w := letters_by_route c v).
  assert (length w = n) as Hw by (by apply length_letters_by_route).
  assert (getValidText w = OK w) as Hvalid.
  { apply getValidText_fixed; [by apply letters_by_route_valid|].
    intros Hnil. rewrite Hnil in Hw. simpl in Hw. lia. }
  unfold decrypt. rewrite Hvalid. fold c. rewrite Hw.
  destruct (Nat.leb_spec n c) as [?|_]; [lia|].
  cbv zeta. rewrite (row_fill_loop (fun _ => true)).
  set (r := (n + c - 1) / c).
  assert (n <= r * c) as Hfit by (by apply rows_fit).
  pose proof (fun i j => row_fill_get false false (fun _ => true) n r c i j)
    as Hfilled.
  destruct (fold_left _ (rowmajor r c) _) as [filled k]. simpl in Hfilled.
  assert (forall i j, i < r -> j < c ->
                      tget false filled i j = true <-> filled_cell c n (i, j))
    as Hfill.
  { intros i j Hi Hj. rewrite Hfilled by done. unfold filled_cell.
    destruct (Nat.ltb_spec (lin c (i, j)) n); split; (done || lia). }
  rewrite (col_write_loop (tget false filled) (char_at w)).
  destruct (scatter_spec " "%char (tget false filled) (char_at w) n r c
              (route r c) (tmake r c " "%char) 0) as (_ & Hwritten & _).
  { apply twf_tmake. }
  { apply in_range_route. }
  { apply NoDup_route. }
  assert (passing (tget false filled) (route r c)
          = filter (filled_cell c n) (route r c)) as Hpass.
  { apply filter_ext_elem. intros [i j] Hij.
    apply elem_of_route in Hij as [Hi Hj]. by apply Hfill. }
  rewrite Hpass in Hwritten.
  destruct (fold_left _ (route r c) _) as [table k']. simpl in Hwritten.
  rewrite (row_read_loop (tget false filled) (tget " "%char table)).
  f_equal.
  rewrite (filter_ext_elem _ (filled_cell c n)).
  2:{ intros [i j] Hij. apply elem_of_rowmajor in Hij as [Hi Hj].
      by apply Hfill. }
  transitivity ((fun ij => char_at v (lin c ij))
                  <$> filter (filled_cell c n) (rowmajor r c)).
  - apply fmap_ext_elem. intros [i j] Hij. simpl.
    apply list_elem_of_filter in Hij as [Hcell Hij].
    apply elem_of_rowmajor in Hij.
    destruct (list_elem_of_lookup_1
                (filter (filled_cell c n) (route r c)) (i, j)) as [m Hm].
    { apply list_elem_of_filter. split; [done|]. by apply elem_of_route. }
    assert (m < n) as Hmn.
    { rewrite <- (length_filled_route r c n Hfit). by eapply lookup_lt_Some. }
    rewrite (Hwritten m i j Hm Hmn). simpl.
    unfold char_at at 1. unfold w, letters_by_route. fold n. unfold rows_of.
    fold r. by rewrite list_lookup_fmap, Hm.
  - rewrite (list_fmap_compose (lin c) (char_at v) _
             : (fun ij => char_at v (lin c ij)) <$> _ = _).
    rewrite lin_filled_rowmajor by done.
    apply (fmap_lookup_seq " "%char v).
Qed.

(** *** The constructor *)

Lemma new_OK k self :
  new k = OK self <-> (0 < k)%Z /\ self = {| columns := Z.to_nat k |}.
Proof.
  unfold new, getValidKey. destruct (Z.leb_spec k 0) as [Hk|Hk].
  - split; [done|]. intros [? _]. lia.
  - split; [by intros [= <-]|]. by intros [_ ->].
Qed.

Lemma new_columns k self : new k = OK self -> 0 < columns self.
Proof. intros [Hk ->]%new_OK. simpl. lia. Qed.

(** *** The claims on the route cipher *)

(** C2.  Round trip of the route cipher: for every column count [k > 0]
    and every text whose normalization (letters only, uppercased) is
    strictly longer than [k], the cipher is constructed, [encrypt]
    succeeds and [decrypt] of its output returns the normalized text. *)
Theorem route_roundtrip (k : Z) (text : list ascii) :
  (0 < k)%Z ->
  Z.to_nat k < length (normalize text) ->
  exists self e,
    new k = OK self
    /\ encrypt self text = OK e
    /\ decrypt self e = OK (normalize text).
Proof.
  intros Hk Hlen. exists {| columns := Z.to_nat k |}.
  exists (letters_by_route (Z.to_nat k) (normalize text)).
  split; [by apply new_OK|].
  assert (getValidText text = OK (normalize text)) as Hv.
  { apply getValidText_OK. split; [done|].
    intros Hnil. rewrite Hnil in Hlen. simpl in Hlen. lia. }
  split.
  - apply (encrypt_valid {| columns := Z.to_nat k |}); [done|]. simpl. lia.
  - apply (decrypt_letters_by_route {| columns := Z.to_nat k |}).
    + apply normalize_valid.
    + simpl. lia.
Qed.

Lemma route_roundtrip_witness :
  exists self e,
    new 4 = OK self
    /\ encrypt self (str "Route 66, again!") = OK e
    /\ decrypt self e = OK (normalize (str "Route 66, again!")).
Proof.
  apply (route_roundtrip 4 (str "Route 66, again!")); [lia|].
  vm_compute. lia.
Defined.

(** C4.  The worked example with 3 columns: [encrypt "HELLO"] is
    ["LOELH"] and [decrypt "LOELH"] is ["HELLO"]. *)
Theorem route_hello_example :
  exists self,
    new 3 = OK self
    /\ encrypt self (str "HELLO") = OK (str "LOELH")
    /\ decrypt self (str "LOELH") = OK (str "HELLO").
Proof. eexists. split; [reflexivity|]. split; vm_compute; reflexivity. Qed.

Lemma encrypt_long_enough self text v :
  getValidText text = OK v -> columns self < length v ->
  exists e, encrypt self text = OK e.
Proof.
  intros Hv Hlen. unfold encrypt. rewrite Hv.
  destruct (Nat.leb_spec (length v) (columns self)) as [?|_]; [lia|].
  cbv zeta. destruct (fold_left _ _ _) as [t k]. eauto.
Qed.

Lemma decrypt_long_enough self text v :
  getValidText text = OK v -> columns self < length v ->
  exists p, decrypt self text = OK p.
Proof.
  intros Hv Hlen. unfold decrypt. rewrite Hv.
  destruct (Nat.leb_spec (length v) (columns self)) as [?|_]; [lia|].
  cbv zeta. destruct (fold_left _ (seq 0 _) _) as [filled k].
  destruct (fold_left _ (reverse _) _) as [t k']. eauto.
Qed.

Lemma encrypt_too_short self text v :
  getValidText text = OK v -> length v <= columns self ->
  encrypt self text = Err TextTooShort.
Proof.
  intros Hv Hlen. unfold encrypt. rewrite Hv.
  by destruct (Nat.leb_spec (length v) (columns self)) as [_|?]; [|lia].
Qed.

Lemma decrypt_too_short self text v :
  getValidText text = OK v -> length v <= columns self ->
  decrypt self text = Err TextTooShort.
Proof.
  intros Hv Hlen. unfold decrypt. rewrite Hv.
  by destruct (Nat.leb_spec (length v) (columns self)) as [_|?]; [|lia].
Qed.

(** C5.  Once the text is normalized to [v] (a non-empty run of letters),
    [encrypt] and [decrypt] fail with TextTooShort exactly when
    [length v <= columns]; the test is strict: a text of exactly
    [columns] letters fails, one of [columns + 1] letters passes it and
    both operations return a result. *)
Theorem route_text_too_short self text v :
  getValidText text = OK v ->
  (encrypt self text = Err TextTooShort <-> length v <= columns self)
  /\ (decrypt self text = Err TextTooShort <-> length v <= columns self)
  /\ (length v = columns self ->
      encrypt self text = Err TextTooShort
      /\ decrypt self text = Err TextTooShort)
  /\ (length v = columns self + 1 ->
      (exists e, encrypt self text = OK e)
      /\ (exists p, decrypt self text = OK p)).
Proof.
  intros Hv. split; [|split; [|split]].
  - split; [|by apply encrypt_too_short].
    intros Herr.
    destruct (decide (length v <= columns self)) as [|Hgt]; [done|].
    destruct (encrypt_long_enough self text v) as [e He]; [done|lia|].
    congruence.
  - split; [|by apply decrypt_too_short].
    intros Herr.
    destruct (decide (length v <= columns self)) as [|Hgt]; [done|].
    destruct (decrypt_long_enough self text v) as [e He]; [done|lia|].
    congruence.
  - intros Heq. split.
    + apply (encrypt_too_short self text v); [done|lia].
    + apply (decrypt_too_short self text v); [done|lia].
  - intros Heq. split.
    + apply (encrypt_long_enough self text v); [done|lia].
    + apply (decrypt_long_enough self text v); [done|lia].
Qed.

Lemma route_text_too_short_witness :
  (encrypt {| columns := 5 |} (str "world") = Err TextTooShort
   <-> length (str "WORLD") <= 5)
  /\ (decrypt {| columns := 5 |} (str "world") = Err TextTooShort
      <-> length (str "WORLD") <= 5)
  /\ (length (str "WORLD") = 5 ->
      encrypt {| columns := 5 |} (str "world") = Err TextTooShort
      /\ decrypt {| columns := 5 |} (str "world") = Err TextTooShort)
  /\ (length (str "WORLD") = 5 + 1 ->
      (exists e, encrypt {| columns := 5 |} (str "world") = OK e)
      /\ (exists p, decrypt {| columns := 5 |} (str "world") = OK p)).
Proof.
  apply (route_text_too_short {| columns := 5 |} (str "world") (str "WORLD")).
  vm_compute. reflexivity.
Defined.

(** The length rule with 5 columns: 5 letters are too short, 6 are not. *)
Example route_length_rule :
  encrypt {| columns := 5 |} (str "WORLD") = Err TextTooShort
  /\ decrypt {| columns := 5 |} (str "WORLD") = Err TextTooShort
  /\ encrypt {| columns := 5 |} (str "WORLDS") = OK (str "DLROSW")
  /\ decrypt {| columns := 5 |} (str "DLROSW") = OK (str "WORLDS").
Proof. repeat split; vm_compute; reflexivity. Qed.

Lemma getValidText_cases text :
  (text = [] /\ getValidText text = Err EmptyText)
  \/ (text <> [] /\ normalize text = [] /\ getValidText text = Err NoLetters)
  \/ (normalize text <> [] /\ getValidText text = OK (normalize text)).
Proof.
  rewrite getValidText_spec. destruct text as [|c text]; [by left|].
  right. destruct (normalize (c :: text)) as [|x v]; [by left|by right].
Qed.

Lemma getValidText_normalize text :
  normalize text <> [] -> getValidText (normalize text) = getValidText text.
Proof.
  intros Hne.
  destruct (getValidText_cases text) as [[-> _]|[(_ & ? & _)|[_ ->]]];
    [done..|].
  apply getValidText_fixed; [apply normalize_valid|done].
Qed.

Lemma encrypt_outcome self text :
  match getValidText text with
  | Err e => encrypt self text = Err e
  | OK v => encrypt self text = Err TextTooShort
            \/ exists e, encrypt self text = OK e
  end.
Proof.
  destruct (getValidText text) as [v|e] eqn:Hv.
  - destruct (decide (length v <= columns self)).
    + left. by eapply encrypt_too_short.
    + right. eapply encrypt_long_enough; [done|lia].
  - unfold encrypt. by rewrite Hv.
Qed.

Lemma decrypt_outcome self text :
  match getValidText text with
  | Err e => decrypt self text = Err e
  | OK v => decrypt self text = Err TextTooShort
            \/ exists p, decrypt self text = OK p
  end.
Proof.
  destruct (getValidText text) as [v|e] eqn:Hv.
  - destruct (decide (length v <= columns self)).
    + left. by eapply decrypt_too_short.
    + right. eapply decrypt_long_enough; [done|lia].
  - unfold decrypt. by rewrite Hv.
Qed.

(** C8.  [decrypt] normalizes its input with the same [getValidText] as
    [encrypt]: non-letters (digits, punctuation) raise no error and are
    dropped before decrypting, so that [decrypt text] is
    [decrypt (normalize text)]; the validation fails only with EmptyText,
    exactly on the empty input, and with NoLetters, exactly on a
    non-empty input without letters.  (The only other failure of
    [decrypt] is the length test that follows the validation.) *)
Theorem route_decrypt_normalizes self text :
  (decrypt self text = Err EmptyText <-> text = [])
  /\ (decrypt self text = Err NoLetters <-> text <> [] /\ normalize text = [])
  /\ (normalize text <> [] -> decrypt self text = decrypt self (normalize text))
  /\ (encrypt self text = Err EmptyText <-> text = [])
  /\ (encrypt self text = Err NoLetters <-> text <> [] /\ normalize text = [])
  /\ (normalize text <> [] -> encrypt self text = encrypt self (normalize text))
  /\ (forall err, getValidText text = Err err ->
                  err = EmptyText \/ err = NoLetters)
  /\ (forall err, decrypt self text = Err err ->
                  err = EmptyText \/ err = NoLetters \/ err = TextTooShort).
Proof.
  pose proof (encrypt_outcome self text) as Henc.
  pose proof (decrypt_outcome self text) as Hdec.
  destruct (getValidText_cases text)
    as [[Hnil Hv]|[(Hne & Hnorm & Hv)|[Hnorm Hv]]];
    rewrite Hv in Henc, Hdec.
  - subst text. rewrite Henc, Hdec. split_and!.
    + done.
    + split; [done|]. by intros [? _].
    + done.
    + done.
    + split; [done|]. by intros [? _].
    + done.
    + intros err [= <-]. by left.
    + intros err [= <-]. by left.
  - rewrite Henc, Hdec. split_and!.
    + done.
    + done.
    + done.
    + done.
    + done.
    + done.
    + rewrite Hv. intros err [= <-]. by right.
    + intros err [= <-]. right. by left.
  - assert (text <> []) as Hne by (by intros ->).
    assert (forall err, err <> TextTooShort -> decrypt self text <> Err err)
      as Hd by (intros err ?; destruct Hdec as [Hd|[p Hd]]; congruence).
    assert (forall err, err <> TextTooShort -> encrypt self text <> Err err)
      as He by (intros err ?; destruct Henc as [He|[p He]]; congruence).
    split_and!.
    + split; [intros ?%Hd|]; done.
    + split; [intros ?%Hd|intros [_ ?]]; done.
    + intros _. unfold decrypt. by rewrite getValidText_normalize.
    + split; [intros ?%He|]; done.
    + split; [intros ?%He|intros [_ ?]]; done.
    + intros _. unfold encrypt. by rewrite getValidText_normalize.
    + by rewrite Hv.
    + intros err Herr. destruct err; try (by apply Hd in Herr). auto.
Qed.

(** Digits in a ciphertext are dropped, not rejected. *)
Example route_decrypt_digits :
  decrypt {| columns := 3 |} (str "L0OE-LH7") = OK (str "HELLO")
  /\ decrypt {| columns := 3 |} (str "2024") = Err NoLetters
  /\ decrypt {| columns := 3 |} (str "") = Err EmptyText.
Proof. repeat split; vm_compute; reflexivity. Qed.

(** C10.  With a constructed cipher (column count [k > 0]), whenever
    [encrypt] succeeds its output is a permutation of the normalized
    input: same length, same letters with the same multiplicities. *)
Theorem route_encrypt_permutation (k : Z) self text e :
  new k = OK self ->
  encrypt self text = OK e ->
  e ≡ₚ normalize text /\ length e = length (normalize text).
Proof.
  intros Hnew He. apply new_columns in Hnew.
  pose proof (encrypt_outcome self text) as Hout.
  destruct (getValidText_cases text) as [[_ Hv]|[(_ & _ & Hv)|[Hnorm Hv]]];
    rewrite Hv in Hout; try congruence.
  destruct (decide (length (normalize text) <= columns self)) as [Hle|Hgt].
  { rewrite (encrypt_too_short self text _ Hv Hle) in He. done. }
  rewrite (encrypt_valid self text _ Hv) in He by lia.
  injection He as <-. split.
  - by apply letters_by_route_perm.
  - by apply length_letters_by_route.
Qed.

Lemma route_encrypt_permutation_witness :
  str "LOELH" ≡ₚ normalize (str "Hello")
  /\ length (str "LOELH") = length (normalize (str "Hello")).
Proof.
  apply (route_encrypt_permutation 3 {| columns := 3 |} (str "Hello"));
    vm_compute; reflexivity.
Defined.
End TableRouteFacts.

(** ** Polyalphabetic substitution: alphabet, conversions, arithmetic *)

Module ModAlphaFacts.
Import ModAlpha ModAlphaSpec.

Local Open Scope Z_scope.

(** *** Characters *)

Ltac char_cases :=
  unfold isValidChar, isUpperChar, toUpperChar, L_A, L_YA, L_a, L_ya, L_YO,
    L_yo in *;
  repeat match goal with
         | |- context [(?a <=? ?b)%Z] => destruct (Z.leb_spec a b)
         | |- context [(?a =? ?b)%Z] => destruct (Z.eqb_spec a b)
         | H : context [(?a <=? ?b)%Z] |- _ => destruct (Z.leb_spec a b)
         | H : context [(?a =? ?b)%Z] |- _ => destruct (Z.eqb_spec a b)
         end;
  simpl in *; try done; try lia.

Lemma isUpperChar_toUpperChar c :
  isValidChar c = true -> isUpperChar (toUpperChar c) = true.
Proof. intros H. char_cases. Qed.

Lemma isUpperChar_valid c : isUpperChar c = true -> isValidChar c = true.
Proof. intros H. char_cases. Qed.

Lemma toUpperChar_upper c : isUpperChar c = true -> toUpperChar c = c.
Proof. intros H. char_cases. Qed.

Lemma isUpperChar_range c :
  isUpperChar c = true <-> c = 1025 \/ 1040 <= c <= 1071.
Proof. split; intros H; char_cases. Qed.

(** *** The alphabet and its index map *)

Lemma upper_check_all : forallb upper_check (1025 :: seqZ 1040 32) = true.
Proof. vm_compute. reflexivity. Qed.

Lemma index_check_all : forallb index_check (seqZ 0 33) = true.
Proof. vm_compute. reflexivity. Qed.

Lemma upper_facts c :
  isUpperChar c = true ->
  init_alphaNum !! c = Some (index c)
  /\ in_alphabet (index c)
  /\ letter (index c) = c.
Proof.
  intros Hc. apply isUpperChar_range in Hc.
  assert (c ∈ 1025 :: seqZ 1040 32) as Hin.
  { destruct Hc as [->|Hc]; [by left|]. right. apply elem_of_seqZ. lia. }
  pose proof upper_check_all as Hall.
  rewrite forallb_forall in Hall.
  specialize (Hall c (proj1 (list_elem_of_In _ _) Hin)).
  unfold upper_check in Hall.
  apply andb_true_iff in Hall as [Hall Hletter%Z.eqb_eq].
  apply andb_true_iff in Hall as [Hall Hhi%Z.ltb_lt].
  apply andb_true_iff in Hall as [Hall Hlo%Z.leb_le].
  apply bool_decide_eq_true in Hall. unfold in_alphabet.
  split; [done|]. split; [lia|done].
Qed.

Lemma index_facts n :
  in_alphabet n -> isUpperChar (letter n) = true /\ index (letter n) = n.
Proof.
  intros Hn. unfold in_alphabet in Hn.
  assert (n ∈ seqZ 0 33) as Hin by (apply elem_of_seqZ; lia).
  pose proof index_check_all as Hall.
  rewrite forallb_forall in Hall.
  specialize (Hall n (proj1 (list_elem_of_In _ _) Hin)).
  unfold index_check in Hall. apply andb_true_iff in Hall as [? ?%Z.eqb_eq].
  done.
Qed.

Lemma letter_in_numAlpha n : in_alphabet n -> letter n ∈ numAlpha.
Proof.
  intros Hn. unfold letter, wchar_at.
  destruct (lookup_lt_is_Some_2 numAlpha (Z.to_nat n)) as [c Hc].
  { change (length numAlpha) with 33%nat. unfold in_alphabet in Hn. lia. }
  rewrite Hc. simpl. by eapply list_elem_of_lookup_2.
Qed.

(** *** The arithmetic of the two loops *)

Lemma size_t_wrap_small z : 0 <= z < 2 ^ 32 -> size_t_wrap z = z.
Proof.
  intros [Hlo Hhi]. unfold size_t_wrap. apply Z.mod_small.
  split; [done|]. eapply Z.lt_trans; [apply Hhi|reflexivity].
Qed.

Lemma enc_spec w k :
  in_alphabet w -> in_alphabet k -> enc w k = (w + k) mod 33.
Proof.
  unfold in_alphabet, enc. intros Hw Hk.
  change (Z.of_nat (length numAlpha)) with 33.
  rewrite size_t_wrap_small; [done|].
  change (2 ^ 32) with 4294967296. lia.
Qed.

Lemma dec_spec w k :
  in_alphabet w -> in_alphabet k -> dec w k = (w + 33 - k) mod 33.
Proof.
  unfold in_alphabet, dec. intros Hw Hk.
  change (Z.of_nat (length numAlpha)) with 33.
  rewrite (size_t_wrap_small w), (size_t_wrap_small k), size_t_wrap_small;
    [done|change (2 ^ 32) with 4294967296; lia..].
Qed.

Lemma enc_in_alphabet w k :
  in_alphabet w -> in_alphabet k -> in_alphabet (enc w k).
Proof.
  intros Hw Hk. rewrite enc_spec by done. unfold in_alphabet.
  apply Z.mod_pos_bound. lia.
Qed.

Lemma dec_in_alphabet w k :
  in_alphabet w -> in_alphabet k -> in_alphabet (dec w k).
Proof.
  intros Hw Hk. rewrite dec_spec by done. unfold in_alphabet.
  apply Z.mod_pos_bound. lia.
Qed.

Lemma dec_enc w k : in_alphabet w -> in_alphabet k -> dec (enc w k) k = w.
Proof.
  intros Hw Hk. rewrite dec_spec by (by try apply enc_in_alphabet).
  rewrite enc_spec by done. unfold in_alphabet in *.
  destruct (Z_lt_le_dec (w + k) 33) as [Hlt|Hge].
  - rewrite (Z.mod_small (w + k)) by lia.
    replace (w + k + 33 - k) with (w + 1 * 33) by lia.
    rewrite Z.mod_add by lia. apply Z.mod_small. lia.
  - replace (w + k) with ((w + k - 33) + 1 * 33) by lia.
    rewrite Z.mod_add by lia. rewrite (Z.mod_small (w + k - 33)) by lia.
    replace (w + k - 33 + 33 - k) with w by lia. apply Z.mod_small. lia.
Qed.

(** *** Validation *)

Lemma normalize_upper s : Forall upper (normalize s).
Proof.
  unfold normalize. apply Forall_fmap, Forall_forall. intros c Hc.
  apply list_elem_of_filter in Hc as [Hc _]. by apply isUpperChar_toUpperChar.
Qed.

Lemma getValidOpenText_loop s : forall acc,
  fold_left (fun tmp c =>
               if isValidChar c then tmp ++ [toUpperChar c] else tmp)
            s acc
  = acc ++ normalize s.
Proof.
  unfold normalize. induction s as [|c s IH]; intros acc; simpl.
  { by rewrite app_nil_r. }
  rewrite IH. destruct (isValidChar c) eqn:Hc.
  - rewrite filter_cons_True by done. csimpl. by rewrite <- app_assoc.
  - rewrite filter_cons_False by congruence. done.
Qed.

Lemma getValidOpenText_OK s t :
  getValidOpenText s = OK t <-> t = normalize s /\ t <> [].
Proof.
  unfold getValidOpenText. rewrite (getValidOpenText_loop s []). cbn [app].
  destruct (normalize s) as [|c n].
  - split; [done|]. by intros [-> ?].
  - split; [by intros [= <-]|]. by intros [-> _].
Qed.

Lemma getValidOpenText_Err s e :
  getValidOpenText s = Err e -> e = EmptyOpenText /\ normalize s = [].
Proof.
  unfold getValidOpenText. rewrite (getValidOpenText_loop s []). cbn [app].
  destruct (normalize s); [by intros [= <-]|done].
Qed.

Lemma forallb_Forall {B} (f : B -> bool) (l : list B) :
  forallb f l = true <-> Forall (fun x => f x = true) l.
Proof.
  induction l as [|x l IH]; simpl.
  - split; [constructor|done].
  - rewrite andb_true_iff, Forall_cons, IH. done.
Qed.

Lemma getValidCipherText_OK s t :
  getValidCipherText s = OK t <-> t = s /\ s <> [] /\ Forall upper s.
Proof.
  unfold getValidCipherText. destruct s as [|c s].
  { split; [done|]. by intros (_ & ? & _). }
  destruct (forallb isUpperChar (c :: s)) eqn:Hall.
  - apply forallb_Forall in Hall. split; [by intros [= <-]|by intros [-> _]].
  - split; [done|]. intros (_ & _ & Hup%forallb_Forall). congruence.
Qed.

Lemma validate_key_spec tmp :
  validate_key tmp =
    if forallb isValidChar tmp then OK (toUpperChar <$> tmp)
    else Err InvalidKey.
Proof.
  induction tmp as [|c tmp IH]; simpl; [done|].
  destruct (isValidChar c); simpl; [|done]. rewrite IH.
  by destruct (forallb isValidChar tmp).
Qed.

Lemma getValidKey_OK s validKey :
  getValidKey s = OK validKey ->
  s <> [] /\ validKey = toUpperChar <$> s /\ Forall upper validKey.
Proof.
  unfold getValidKey. destruct s as [|c s]; [done|].
  rewrite validate_key_spec.
  destruct (forallb isValidChar (c :: s)) eqn:Hall; [|done].
  intros [= <-]. split; [done|]. split; [done|].
  change (Forall upper (toUpperChar <$> c :: s)).
  apply Forall_fmap. apply forallb_Forall in Hall.
  eapply Forall_impl; [exact Hall|]. intros x Hx. simpl.
  by apply isUpperChar_toUpperChar.
Qed.

(** *** Conversions *)

Lemma convert_s_loop (m : gmap Z Z) s : forall acc,
  fold_left (fun result c =>
               match m !! c with
               | Some n => result ++ [n]
               | None => result
               end)
            s acc
  = acc ++ omap (fun c => m !! c) s.
Proof.
  induction s as [|c s IH]; intros acc; simpl.
  { by rewrite app_nil_r. }
  rewrite IH. destruct (m !! c); [|done]. by rewrite <- app_assoc.
Qed.

Lemma convert_s_upper s :
  Forall upper s -> convert_s init_alphaNum s = index <$> s.
Proof.
  intros Hs. unfold convert_s. rewrite convert_s_loop. cbn [app].
  induction Hs as [|c s Hc Hs IH]; [done|]. cbn [omap list_omap].
  destruct (upper_facts c Hc) as (-> & _). by rewrite IH.
Qed.

Lemma convert_v_loop v : forall acc,
  Forall in_alphabet v ->
  fold_left (fun result i =>
               if (0 <=? i) && (i <? Z.of_nat (length numAlpha))
               then result ++ [wchar_at numAlpha (Z.to_nat i)]
               else result)
            v acc
  = acc ++ (letter <$> v).
Proof.
  induction v as [|n v IH]; intros acc Hv.
  { simpl. by rewrite app_nil_r. }
  apply Forall_cons in Hv as [Hn Hv]. cbn [fold_left]. rewrite IH by done.
  assert ((0 <=? n) && (n <? Z.of_nat (length numAlpha)) = true) as ->.
  { unfold in_alphabet in Hn. change (Z.of_nat (length numAlpha)) with 33.
    apply andb_true_iff. split; [apply Z.leb_le|apply Z.ltb_lt]; lia. }
  by rewrite <- app_assoc.
Qed.

Lemma convert_v_in_alphabet v :
  Forall in_alphabet v -> convert_v v = letter <$> v.
Proof. intros Hv. unfold convert_v. by rewrite convert_v_loop. Qed.

(** *** The loop that rewrites [work] in place *)

Lemma inplace_loop (F : nat -> Z -> Z) (work : list Z) :
  fold_left (fun work i => <[i := F i (int_at work i)]> work)
            (seq 0 (length work)) work
  = imap F work.
Proof.
  enough (forall rest pre,
             fold_left (fun work i => <[i := F i (int_at work i)]> work)
                       (seq (length pre) (length rest)) (pre ++ rest)
             = pre ++ imap (fun i => F (length pre + i)%nat) rest) as H.
  { apply (H work []). }
  induction rest as [|x rest IH]; intros pre; [done|].
  cbn [length seq fold_left].
  unfold int_at at 2. rewrite list_lookup_middle by done. cbn [default].
  rewrite insert_app_r_alt, Nat.sub_diag by done. cbn [insert list_insert].
  rewrite (cons_middle _ pre rest), app_assoc.
  replace (Datatypes.S (length pre)) with (length (pre ++ [F (length pre) x]))
    by (rewrite length_app; simpl; lia).
  rewrite IH, <- app_assoc. cbn [app imap]. rewrite Nat.add_0_r. do 2 f_equal.
  apply imap_ext. intros i y _. simpl. f_equal. rewrite length_app. simpl. lia.
Qed.

(** *** The constructor *)

Lemma getValidKey_Err s e :
  getValidKey s = Err e -> e = EmptyKey \/ e = InvalidKey.
Proof.
  unfold getValidKey. destruct s as [|c s]; [intros [= <-]; by left|].
  rewrite validate_key_spec. destruct (forallb _ _); [done|].
  intros [= <-]. by right.
Qed.

Lemma subst_new_OK skey self :
  new skey = OK self ->
  exists validKey,
    getValidKey skey = OK validKey
    /\ alphaNum self = init_alphaNum
    /\ key self = index <$> validKey.
Proof.
  unfold new. destruct (getValidKey skey) as [validKey|e] eqn:Hkey; [|done].
  destruct (_ && _); [done|]. intros [= <-]. exists validKey.
  cbn [alphaNum key]. split; [done|]. split; [done|].
  apply convert_s_upper. by apply getValidKey_OK in Hkey as (_ & _ & ?).
Qed.

Lemma index_in_alphabet s : Forall upper s -> Forall in_alphabet (index <$> s).
Proof.
  intros Hs. apply Forall_fmap. eapply Forall_impl; [exact Hs|].
  intros c Hc. simpl. by destruct (upper_facts c Hc) as (_ & ? & _).
Qed.

Lemma new_key_ok skey self : new skey = OK self -> key_ok self.
Proof.
  intros (validKey & Hkey & Halpha & Hk)%subst_new_OK.
  apply getValidKey_OK in Hkey as (Hne & -> & Hup).
  split; [done|]. rewrite Hk. split.
  - destruct skey; [done|]. done.
  - by apply index_in_alphabet.
Qed.

Lemma key_at_in_alphabet self i : key_ok self -> in_alphabet (key_at self i).
Proof.
  intros (_ & Hne & Hall). unfold key_at, int_at.
  destruct (lookup_lt_is_Some_2 (key self) (i mod length (key self))%nat)
    as [k Hk].
  { apply Nat.mod_upper_bound. by destruct (key self). }
  rewrite Hk. simpl. by apply (Forall_lookup_1 _ _ _ _ Hall Hk).
Qed.

(** *** What [encrypt] and [decrypt] compute on validated texts *)

Lemma shifted_letters (F : Z -> Z -> Z) (G : nat -> Z -> Z) self t :
  key_ok self -> Forall upper t ->
  (forall w k, in_alphabet w -> in_alphabet k -> in_alphabet (F w k)) ->
  (forall i c, upper c -> letter (F (index c) (key_at self i)) = G i c) ->
  convert_v (imap (fun i w => F w (key_at self i)) (index <$> t)) = imap G t.
Proof.
  intros Hok Ht HF HG. rewrite convert_v_in_alphabet.
  - rewrite fmap_imap, imap_fmap. apply imap_ext. intros i c Hc. simpl.
    apply HG. by apply (Forall_lookup_1 _ _ _ _ Ht Hc).
  - apply Forall_lookup. intros i w Hw.
    apply list_lookup_imap_Some in Hw as (w0 & Hw0 & ->).
    apply HF; [|by apply key_at_in_alphabet].
    by apply (Forall_lookup_1 _ _ _ _ (index_in_alphabet t Ht) Hw0).
Qed.

Lemma subst_encrypt_valid self text t :
  key_ok self -> getValidOpenText text = OK t ->
  encrypt self text = OK (encrypt_letters self t).
Proof.
  intros Hok Ht. pose proof Hok as (Halpha & _).
  assert (Forall upper t) as Hup.
  { apply getValidOpenText_OK in Ht as [-> _]. apply normalize_upper. }
  unfold encrypt. rewrite Ht, Halpha, convert_s_upper by done.
  pose proof (inplace_loop (fun i w => enc w (key_at self i)) (index <$> t))
    as Hloop.
  unfold enc, key_at in Hloop. rewrite Hloop. f_equal.
  apply (shifted_letters enc); [done..|apply enc_in_alphabet|].
  intros i c Hc. rewrite enc_spec; [done| |by apply key_at_in_alphabet].
  by destruct (upper_facts c Hc) as (_ & ? & _).
Qed.

Lemma subst_decrypt_valid self s :
  key_ok self -> s <> [] -> Forall upper s ->
  decrypt self s = OK (decrypt_letters self s).
Proof.
  intros Hok Hne Hup. pose proof Hok as (Halpha & _).
  assert (getValidCipherText s = OK s) as Hs
    by (by apply getValidCipherText_OK).
  unfold decrypt. rewrite Hs, Halpha, convert_s_upper by done.
  pose proof (inplace_loop (fun i w => dec w (key_at self i)) (index <$> s))
    as Hloop.
  unfold dec, key_at in Hloop. rewrite Hloop. f_equal.
  apply (shifted_letters dec); [done..|apply dec_in_alphabet|].
  intros i c Hc. rewrite dec_spec; [done| |by apply key_at_in_alphabet].
  by destruct (upper_facts c Hc) as (_ & ? & _).
Qed.

Lemma encrypt_letters_spec self t i c :
  key_ok self -> Forall upper t -> encrypt_letters self t !! i = Some c ->
  upper c /\ c ∈ numAlpha.
Proof.
  intros Hok Ht Hc. apply list_lookup_imap_Some in Hc as (c0 & Hc0 & ->).
  assert (in_alphabet ((index c0 + key_at self i) mod 33)) as Hin.
  { apply Z.mod_pos_bound. lia. }
  split; [by apply index_facts|by apply letter_in_numAlpha].
Qed.

Lemma encrypt_letters_upper self t :
  key_ok self -> Forall upper t -> Forall upper (encrypt_letters self t).
Proof.
  intros Hok Ht. apply Forall_lookup. intros i c Hc.
  by destruct (encrypt_letters_spec self t i c).
Qed.

Lemma decrypt_encrypt_letters self t :
  key_ok self -> Forall upper t ->
  decrypt_letters self (encrypt_letters self t) = t.
Proof.
  intros Hok Ht. apply list_eq. intros i.
  unfold decrypt_letters, encrypt_letters. rewrite !list_lookup_imap.
  destruct (t !! i) as [c|] eqn:Hc; [|done]. simpl. f_equal.
  pose proof (Forall_lookup_1 _ _ _ _ Ht Hc) as Hup.
  destruct (upper_facts c Hup) as (_ & Hidx & Hletter).
  pose proof (key_at_in_alphabet self i Hok) as Hk.
  rewrite <- enc_spec by done.
  destruct (index_facts (enc (index c) (key_at self i))) as [_ ->].
  { by apply enc_in_alphabet. }
  rewrite <- dec_spec by (by try apply enc_in_alphabet).
  by rewrite dec_enc.
Qed.

(** *** The weak-key test *)

Lemma weak_loop_spec (validKey : list Z) :
  forallb (fun i => wchar_at validKey i =? wchar_at validKey 0)
          (seq 1 (length validKey - 1)) = true
  <-> all_same validKey.
Proof.
  rewrite forallb_Forall. unfold all_same. rewrite !Forall_lookup. split.
  - intros Hloop i c Hc. destruct i as [|i].
    + unfold wchar_at. by rewrite Hc.
    + pose proof (lookup_lt_Some _ _ _ Hc) as Hlt.
      specialize (Hloop i (Datatypes.S i)).
      rewrite lookup_seq in Hloop.
      assert (wchar_at validKey (Datatypes.S i) = c) as <-.
      { unfold wchar_at. by rewrite Hc. }
      apply Z.eqb_eq, Hloop. split; [done|lia].
  - intros Hsame j i [-> Hj]%lookup_seq. apply Z.eqb_eq.
    destruct (lookup_lt_is_Some_2 validKey (1 + j)%nat) as [c Hc]; [lia|].
    unfold wchar_at at 1. rewrite Hc. simpl. by apply (Hsame _ _ Hc).
Qed.

Lemma new_weak skey validKey :
  getValidKey skey = OK validKey ->
  (new skey = Err WeakKey <-> all_same validKey)
  /\ (~ all_same validKey -> exists self, new skey = OK self).
Proof.
  intros Hkey. unfold new. rewrite Hkey.
  assert (0 < length validKey)%nat as Hlen.
  { apply getValidKey_OK in Hkey as (Hne & -> & _). rewrite length_fmap.
    destruct skey; [done|simpl; lia]. }
  destruct (Nat.ltb_spec 0 (length validKey)) as [_|?]; [|lia].
  rewrite andb_true_r.
  destruct (Nat.ltb_spec 1 (length validKey)) as [Hlong|Hone].
  - pose proof (weak_loop_spec validKey) as Hloop.
    destruct (forallb _ _).
    + split; [by rewrite <- Hloop|]. intros Hn. exfalso. by apply Hn, Hloop.
    + split; [|eauto]. split; [done|]. intros Hs%Hloop. done.
  - assert (all_same validKey) as Hsame.
    { destruct validKey as [|c [|??]]; simpl in *; try lia.
      by repeat constructor. }
    split; [done|]. intros Hn. by destruct Hn.
Qed.

(** *** The claims on the substitution cipher *)

(** C1, as the code has it, with the Cyrillic letters of the alphabet.
    The constructor rejects "ААА" with WeakKey and the empty key with
    EmptyKey, and it rejects the single-letter key "А" with WeakKey as
    well: a non-empty key of alphabet letters whose characters are all
    identical after uppercasing is rejected as WeakKey, whether it has
    one character or more. *)
Theorem weak_key_rule :
  new key_AAA = Err WeakKey
  /\ new key_A = Err WeakKey
  /\ new [] = Err EmptyKey
  /\ (forall skey,
        skey <> [] ->
        Forall (fun c => isValidChar c = true) skey ->
        all_same (toUpperChar <$> skey) ->
        new skey = Err WeakKey)
  /\ (forall c, isValidChar c = true -> new [c] = Err WeakKey).
Proof.
  assert (forall skey,
             skey <> [] ->
             Forall (fun c => isValidChar c = true) skey ->
             all_same (toUpperChar <$> skey) ->
             new skey = Err WeakKey) as Hgen.
  { intros skey Hne Hvalid Hsame.
    assert (getValidKey skey = OK (toUpperChar <$> skey)) as Hkey.
    { unfold getValidKey. destruct skey as [|c skey']; [done|].
      rewrite validate_key_spec.
      by rewrite (proj2 (forallb_Forall _ _) Hvalid). }
    by apply (new_weak skey _ Hkey). }
  split; [by vm_compute|]. split; [by vm_compute|]. split; [by vm_compute|].
  split; [exact Hgen|].
  intros c Hc. apply Hgen; [done|by repeat constructor|].
  by repeat constructor.
Qed.

(** A key of two different characters that differ only in case, "аА",
    is weak too: the test compares the uppercased letters. *)
Example mixed_case_key_weak : new [L_a; L_A] = Err WeakKey.
Proof. by vm_compute. Qed.

(** The claim C1 says that the single-letter key "А" is accepted; the
    constructor throws "Weak key" for it. *)
Lemma single_letter_key_rejected :
  ~ (exists self, new key_A = OK self) /\ new key_A = Err WeakKey.
Proof.
  assert (new key_A = Err WeakKey) as H by (by vm_compute).
  split; [|done]. intros [self Hself]. congruence.
Qed.

(** Latin letters are not letters of the alphabet of the cipher. *)
Example latin_key_invalid : new key_latin_AAA = Err InvalidKey.
Proof. by vm_compute. Qed.

(** C3.  Round trip of the substitution cipher: with a constructed
    cipher, for every text that contains at least one letter of the
    alphabet, [encrypt] succeeds and [decrypt] of its output returns the
    normalized text (alphabet letters only, uppercased). *)
Theorem subst_roundtrip skey self text :
  new skey = OK self ->
  Exists (fun c => isValidChar c = true) text ->
  exists e, encrypt self text = OK e /\ decrypt self e = OK (normalize text).
Proof.
  intros Hok%new_key_ok Hletter.
  assert (getValidOpenText text = OK (normalize text)) as Ht.
  { apply getValidOpenText_OK. split; [done|].
    apply Exists_exists in Hletter as (c & Hin & Hc). intros Hnil.
    assert (toUpperChar c ∈ normalize text) as Hmem.
    { apply list_elem_of_fmap_2, list_elem_of_filter. done. }
    rewrite Hnil in Hmem. by apply elem_of_nil in Hmem. }
  pose proof (normalize_upper text) as Hup.
  exists (encrypt_letters self (normalize text)).
  split; [by apply subst_encrypt_valid|].
  rewrite subst_decrypt_valid.
  - by rewrite decrypt_encrypt_letters.
  - done.
  - apply getValidOpenText_OK in Ht as [_ Hne]. intros Hnil. apply Hne.
    apply (f_equal length) in Hnil. unfold encrypt_letters in Hnil.
    rewrite length_imap in Hnil. by destruct (normalize text).
  - by apply encrypt_letters_upper.
Qed.

Lemma subst_roundtrip_witness :
  exists e,
    encrypt cipher_KLYUCH text_privet = OK e
    /\ decrypt cipher_KLYUCH e = OK (normalize text_privet).
Proof.
  apply (subst_roundtrip key_KLYUCH cipher_KLYUCH text_privet).
  - vm_compute. reflexivity.
  - apply Exists_cons_hd. vm_compute. reflexivity.
Defined.

(** C6.  With a constructed cipher, whose key is the list of the
    alphabet positions of the validated key, [encrypt] maps the [i]-th
    letter [c] of the filtered text to the letter at position
    [(index c + key[i mod m]) mod 33] and [decrypt] maps the [i]-th letter
    of a valid ciphertext to the letter at position
    [(index c + 33 - key[i mod m]) mod 33], in order. *)
Theorem subst_formulas skey self :
  new skey = OK self ->
  (exists validKey,
      getValidKey skey = OK validKey /\ key self = index <$> validKey)
  /\ (forall text t,
        getValidOpenText text = OK t ->
        t = normalize text
        /\ encrypt self text =
             OK (imap (fun i c =>
                         wchar_at numAlpha
                           (Z.to_nat
                              ((index c
                                + int_at (key self) (i mod length (key self))%nat)
                               mod 33)))
                      t))
  /\ (forall s t,
        getValidCipherText s = OK t ->
        t = s
        /\ decrypt self s =
             OK (imap (fun i c =>
                         wchar_at numAlpha
                           (Z.to_nat
                              ((index c + 33
                                - int_at (key self) (i mod length (key self))%nat)
                               mod 33)))
                      t)).
Proof.
  intros Hnew. pose proof (new_key_ok _ _ Hnew) as Hok.
  split; [|split].
  - destruct (subst_new_OK _ _ Hnew) as (validKey & ? & _ & ?). eauto.
  - intros text t Ht. split; [by apply getValidOpenText_OK in Ht as [? _]|].
    by apply subst_encrypt_valid.
  - intros s t (-> & Hne & Hup)%getValidCipherText_OK. split; [done|].
    by apply subst_decrypt_valid.
Qed.

Lemma subst_formulas_witness :
  (exists validKey,
      getValidKey key_KLYUCH = OK validKey
      /\ key cipher_KLYUCH = index <$> validKey)
  /\ (forall text t,
        getValidOpenText text = OK t ->
        t = normalize text
        /\ encrypt cipher_KLYUCH text =
             OK (imap (fun i c =>
                         wchar_at numAlpha
                           (Z.to_nat
                              ((index c
                                + int_at (key cipher_KLYUCH)
                                         (i mod length (key cipher_KLYUCH))%nat)
                               mod 33)))
                      t))
  /\ (forall s t,
        getValidCipherText s = OK t ->
        t = s
        /\ decrypt cipher_KLYUCH s =
             OK (imap (fun i c =>
                         wchar_at numAlpha
                           (Z.to_nat
                              ((index c + 33
                                - int_at (key cipher_KLYUCH)
                                         (i mod length (key cipher_KLYUCH))%nat)
                               mod 33)))
                      t)).
Proof.
  apply (subst_formulas key_KLYUCH cipher_KLYUCH). vm_compute. reflexivity.
Defined.

(** The formulas on an example: "Привет, мир" under the key "КЛЮЧ" gives
    "ЪЬЖЩПЮКАЫ", which decrypts to "ПРИВЕТМИР". *)
Example subst_example :
  encrypt cipher_KLYUCH text_privet
  = OK [1066; 1068; 1046; 1065; 1055; 1070; 1050; 1040; 1067]
  /\ decrypt cipher_KLYUCH
       [1066; 1068; 1046; 1065; 1055; 1070; 1050; 1040; 1067]
    = OK [1055; 1056; 1048; 1042; 1045; 1058; 1052; 1048; 1056].
Proof. split; vm_compute; reflexivity. Qed.

Lemma forallb_false_Exists {B} (f : B -> bool) (l : list B) :
  forallb f l = false <-> Exists (fun x => f x = false) l.
Proof.
  induction l as [|x l IH]; simpl.
  - split; [done|]. by intros ?%Exists_nil.
  - rewrite andb_false_iff, Exists_cons, IH. done.
Qed.

Lemma subst_decrypt_outcome self s :
  match getValidCipherText s with
  | Err e => decrypt self s = Err e
  | OK _ => exists p, decrypt self s = OK p
  end.
Proof.
  unfold decrypt. destruct (getValidCipherText s); eauto.
Qed.

(** C7.  [decrypt] is strict.  It fails with "Empty cipher text" exactly
    on the empty input and with "Invalid cipher text" exactly when the
    non-empty input has a character that is not an uppercase letter of
    the alphabet, in particular a lowercase letter; an accepted input is
    used as it is, neither filtered nor uppercased. *)
Theorem subst_decrypt_strict self s :
  (decrypt self s = Err EmptyCipherText <-> s = [])
  /\ (decrypt self s = Err InvalidCipherText
      <-> s <> [] /\ Exists (fun c => isUpperChar c = false) s)
  /\ (forall c, c ∈ s -> isValidChar c = true -> isUpperChar c = false ->
                decrypt self s = Err InvalidCipherText)
  /\ (forall t, getValidCipherText s = OK t -> t = s).
Proof.
  pose proof (subst_decrypt_outcome self s) as Hout.
  assert (decrypt self s = Err InvalidCipherText
          <-> s <> [] /\ Exists (fun c => isUpperChar c = false) s) as Hinv.
  { unfold getValidCipherText in Hout. destruct s as [|c s].
    - rewrite Hout. split; [done|]. by intros [? _].
    - rewrite <- forallb_false_Exists.
      destruct (forallb isUpperChar (c :: s)).
      + destruct Hout as [p ->]. split; [done|]. by intros [_ ?].
      + by rewrite Hout. }
  split; [|split; [done|split]].
  - unfold getValidCipherText in Hout. destruct s as [|c s].
    + by rewrite Hout.
    + split; [|done]. destruct (forallb isUpperChar (c :: s)).
      * destruct Hout as [p ->]. done.
      * by rewrite Hout.
  - intros c Hin _ Hlow. apply Hinv.
    split; [by intros ->; apply elem_of_nil in Hin|].
    apply Exists_exists. eauto.
  - by intros t [-> _]%getValidCipherText_OK.
Qed.

(** A ciphertext with a lowercase letter, "Ъыф". *)
Example subst_decrypt_lowercase :
  decrypt cipher_KLYUCH [1066; 1099; 1092] = Err InvalidCipherText
  /\ decrypt cipher_KLYUCH [] = Err EmptyCipherText.
Proof. split; vm_compute; reflexivity. Qed.

(** C9.  With a constructed cipher, whenever [encrypt] succeeds its
    output consists of uppercase letters of the 33-letter alphabet only
    and is as long as the filtered input; [decrypt] accepts it, so it
    never answers "Invalid cipher text" to it. *)
Theorem subst_encrypt_output skey self text e :
  new skey = OK self ->
  encrypt self text = OK e ->
  Forall (fun c => isUpperChar c = true /\ c ∈ numAlpha) e
  /\ length e = length (normalize text)
  /\ decrypt self e <> Err InvalidCipherText
  /\ exists p, decrypt self e = OK p.
Proof.
  intros Hok%new_key_ok He.
  destruct (getValidOpenText text) as [t|err] eqn:Ht.
  2:{ unfold encrypt in He. by rewrite Ht in He. }
  rewrite (subst_encrypt_valid self text t Hok Ht) in He. injection He as <-.
  apply getValidOpenText_OK in Ht as [-> Hne].
  pose proof (normalize_upper text) as Hup.
  assert (length (encrypt_letters self (normalize text))
          = length (normalize text)) as Hlen by apply length_imap.
  assert (exists p, decrypt self (encrypt_letters self (normalize text)) = OK p)
    as [p Hp].
  { eexists. apply subst_decrypt_valid; [done| |by apply encrypt_letters_upper].
    intros Hnil. rewrite Hnil in Hlen. by destruct (normalize text). }
  split; [|split; [done|split; [congruence|eauto]]].
  apply Forall_lookup. intros i c Hc.
  by apply (encrypt_letters_spec self (normalize text) i c).
Qed.

Lemma subst_encrypt_output_witness :
  Forall (fun c => isUpperChar c = true /\ c ∈ numAlpha) text_cipher
  /\ length text_cipher
     = length (normalize [1055; 1088; 1080; 1074; 1077; 1090])
  /\ decrypt cipher_KLYUCH text_cipher <> Err InvalidCipherText
  /\ exists p, decrypt cipher_KLYUCH text_cipher = OK p.
Proof.
  apply (subst_encrypt_output key_KLYUCH cipher_KLYUCH
           [1055; 1088; 1080; 1074; 1077; 1090] text_cipher);
    vm_compute; reflexivity.
Defined.

End ModAlphaFacts.

(** ** Route transposition: further properties *)

Module TableRouteExtra.
Import TableRoute TableRouteSpec TableRouteColumns TableRouteFacts.

Lemma filled_rowmajor_lookup r c n i j :
  n <= r * c -> i < r -> j < c -> lin c (i, j) < n ->
  filter (filled_cell c n) (rowmajor r c) !! lin c (i, j) = Some (i, j).
Proof.
  intros Hfit Hi Hj Hlt.
  destruct (list_elem_of_lookup_1
              (filter (filled_cell c n) (rowmajor r c)) (i, j)) as [m Hm].
  { apply list_elem_of_filter. split; [done|]. by apply elem_of_rowmajor. }
  assert ((lin c <$> filter (filled_cell c n) (rowmajor r c)) !! m
          = Some (lin c (i, j))) as H by (by rewrite list_lookup_fmap, Hm).
  rewrite lin_filled_rowmajor in H by done.
  apply lookup_seq in H as [-> _]. done.
Qed.

(** What [decrypt] computes on any validated text [w]: a text [d] whose
    letters, listed along the route, are [w]. *)
Lemma decrypt_route_spec self w :
  Forall valid_char w ->
  0 < columns self < length w ->
  exists d,
    decrypt self w = OK d
    /\ length d = length w
    /\ Forall valid_char d
    /\ letters_by_route (columns self) d = w.
Proof.
  intros Hw [Hc Hlen].
  set (c := columns self) in *. set (n := length w) in *.
  assert (getValidText w = OK w) as Hvalid.
  { apply getValidText_fixed; [done|]. intros Hnil. subst n.
    rewrite Hnil in Hlen. simpl in Hlen. lia. }
  unfold decrypt. rewrite Hvalid. fold c n.
  destruct (Nat.leb_spec n c) as [?|_]; [lia|].
  cbv zeta. rewrite (row_fill_loop (fun _ => true)).
  set (r := (n + c - 1) / c).
  assert (n <= r * c) as Hfit by (by apply rows_fit).
  pose proof (fun i j => row_fill_get false false (fun _ => true) n r c i j)
    as Hfilled.
  destruct (fold_left _ (rowmajor r c) _) as [filled k]. simpl in Hfilled.
  assert (forall i j, i < r -> j < c ->
                      tget false filled i j = true <-> filled_cell c n (i, j))
    as Hfill.
  { intros i j Hi Hj. rewrite Hfilled by done. unfold filled_cell.
    destruct (Nat.ltb_spec (lin c (i, j)) n); split; (done || lia). }
  rewrite (col_write_loop (tget false filled) (char_at w)).
  destruct (scatter_spec " "%char (tget false filled) (char_at w) n r c
              (route r c) (tmake r c " "%char) 0) as (_ & Hwritten & _).
  { apply twf_tmake. }
  { apply in_range_route. }
  { apply NoDup_route. }
  assert (passing (tget false filled) (route r c)
          = filter (filled_cell c n) (route r c)) as Hpass.
  { apply filter_ext_elem. intros [i j] Hij.
    apply elem_of_route in Hij as [Hi Hj]. by apply Hfill. }
  rewrite Hpass in Hwritten.
  destruct (fold_left _ (route r c) _) as [table k']. simpl in Hwritten.
  rewrite (row_read_loop (tget false filled) (tget " "%char table)).
  rewrite (filter_ext_elem _ (filled_cell c n)).
  2:{ intros [i j] Hij. apply elem_of_rowmajor in Hij as [Hi Hj].
      by apply Hfill. }
  set (fr := filter (filled_cell c n) (route r c)) in *.
  set (d := (fun ij : nat * nat => tget " "%char table ij.1 ij.2)
              <$> filter (filled_cell c n) (rowmajor r c)).
  assert (length fr = n) as Hfr by (by apply length_filled_route).
  assert (length d = n) as Hd.
  { unfold d. rewrite length_fmap, <- (length_fmap (lin c)).
    rewrite lin_filled_rowmajor by done. apply length_seq. }
  assert (forall m i j, fr !! m = Some (i, j) ->
                        i < r /\ j < c /\ lin c (i, j) < n /\ m < n
                        /\ tget " "%char table i j = char_at w m) as Hcell.
  { intros m i j Hm. pose proof (lookup_lt_Some _ _ _ Hm) as Hlt.
    pose proof (list_elem_of_lookup_2 _ _ _ Hm) as Hin.
    apply list_elem_of_filter in Hin as [Hcell Hin].
    apply elem_of_route in Hin as [Hi Hj].
    repeat split; try done; try lia. apply (Hwritten m i j Hm). lia. }
  exists d. split; [done|]. split; [done|]. split.
  - unfold d. apply Forall_fmap, Forall_forall. intros [i j] Hij. simpl.
    apply list_elem_of_filter in Hij as [Hcell' Hij].
    apply elem_of_rowmajor in Hij as [Hi Hj].
    destruct (list_elem_of_lookup_1 fr (i, j)) as [m Hm].
    { apply list_elem_of_filter. split; [done|]. by apply elem_of_route. }
    destruct (Hcell m i j Hm) as (_ & _ & _ & Hmn & ->).
    by apply char_at_valid.
  - unfold letters_by_route. rewrite Hd. unfold rows_of. fold r. fold fr.
    apply list_eq. intros m. rewrite list_lookup_fmap.
    destruct (fr !! m) as [[i j]|] eqn:Hm; simpl.
    + destruct (Hcell m i j Hm) as (Hi & Hj & Hl & Hmn & Ht).
      unfold char_at at 1. unfold d.
      rewrite list_lookup_fmap, filled_rowmajor_lookup by done. simpl.
      rewrite Ht. unfold char_at.
      destruct (lookup_lt_is_Some_2 w m Hmn) as [x ->]. done.
    + symmetry. apply lookup_ge_None_2. apply lookup_ge_None_1 in Hm. lia.
Qed.

(** The route, column by column. *)
Lemma fmap_filter_bind {A B C} (g : B -> C) (P : B -> Prop)
      `{!forall y, Decision (P y)} (f : A -> list B) (l : list A) :
  g <$> filter P (l ≫= f) = l ≫= (fun a => g <$> filter P (f a)).
Proof.
  induction l as [|a l IH]; [done|]. csimpl.
  by rewrite filter_app, fmap_app, IH.
Qed.

Lemma bind_ext_elem {A B} (f g : A -> list B) (l : list A) :
  (forall a, a ∈ l -> f a = g a) -> l ≫= f = l ≫= g.
Proof.
  induction l as [|a l IH]; intros Hfg; [done|]. csimpl.
  rewrite (Hfg a) by (by left). f_equal. apply IH.
  intros a' Ha'. apply Hfg. by right.
Qed.

Lemma letters_by_route_columns c v :
  letters_by_route c v = read_columns c v.
Proof.
  unfold letters_by_route, read_columns, route, cells_by_cols.
  rewrite fmap_filter_bind. apply bind_ext_elem. intros j _.
  unfold column. rewrite <- fmap_reverse, <- filter_reverse.
  rewrite (filter_fmap_comm (fun i => (i, j))
             (filled_cell c (length v)) (reverse _)).
  rewrite <- list_fmap_compose. done.
Qed.

Lemma rows_of_one n : rows_of n 1 = n.
Proof. unfold rows_of. rewrite Nat.div_1_r. lia. Qed.

Lemma read_columns_one v : read_columns 1 v = reverse v.
Proof.
  unfold read_columns, column. rewrite rows_of_one.
  change (reverse (seq 0 1)) with [0]. csimpl. rewrite app_nil_r. f_equal.
  rewrite filter_all by (intros i [_ ?]%elem_of_seq; lia).
  etrans; [|apply (fmap_lookup_seq " "%char v)].
  apply fmap_ext_elem. intros i _. unfold char_at. do 2 f_equal. lia.
Qed.

Lemma upper_ascii_valid ch : valid_char ch -> upper_ascii ch.
Proof.
  intros [Halpha Hup]. unfold upper_ascii.
  assert (implb (isalpha ch && Ascii.eqb (toupper ch) ch)
                ((65 <=? nat_of_ascii ch) && (nat_of_ascii ch <=? 90))
          = true) as Hcheck.
  { clear. destruct ch as [[] [] [] [] [] [] [] []]; vm_compute; reflexivity. }
  rewrite Halpha, Hup, Ascii.eqb_refl in Hcheck. cbn [andb implb] in Hcheck.
  apply andb_true_iff in Hcheck as [?%Nat.leb_le ?%Nat.leb_le]. done.
Qed.

Lemma decrypt_normalize self text :
  normalize text <> [] -> decrypt self text = decrypt self (normalize text).
Proof. intros Hne. unfold decrypt. by rewrite getValidText_normalize. Qed.

Lemma encrypt_OK_inv self text e :
  0 < columns self ->
  encrypt self text = OK e ->
  getValidText text = OK (normalize text)
  /\ columns self < length (normalize text)
  /\ e = letters_by_route (columns self) (normalize text).
Proof.
  intros Hc He. pose proof (encrypt_outcome self text) as Hout.
  destruct (getValidText_cases text) as [[_ Hv]|[(_ & _ & Hv)|[Hnorm Hv]]];
    rewrite Hv in Hout; try congruence.
  destruct (decide (length (normalize text) <= columns self)) as [Hle|Hgt].
  { rewrite (encrypt_too_short self text _ Hv Hle) in He. done. }
  rewrite (encrypt_valid self text _ Hv) in He by lia.
  injection He as <-. split; [done|]. split; [lia|done].
Qed.

Lemma decrypt_OK_inv self text d :
  0 < columns self ->
  decrypt self text = OK d ->
  getValidText text = OK (normalize text)
  /\ columns self < length (normalize text)
  /\ length d = length (normalize text)
  /\ Forall valid_char d
  /\ letters_by_route (columns self) d = normalize text.
Proof.
  intros Hc Hd. pose proof (decrypt_outcome self text) as Hout.
  destruct (getValidText_cases text) as [[_ Hv]|[(_ & _ & Hv)|[Hnorm Hv]]];
    rewrite Hv in Hout; try congruence.
  destruct (decide (length (normalize text) <= columns self)) as [Hle|Hgt].
  { rewrite (decrypt_too_short self text _ Hv Hle) in Hd. done. }
  destruct (decrypt_route_spec self (normalize text)) as (d' & Hd' & ?);
    [apply normalize_valid|lia|].
  rewrite decrypt_normalize, Hd' in Hd by done. injection Hd as <-.
  split; [done|]. split; [lia|done].
Qed.

(** *** The constructor and the validation *)

(** X1.  The constructor accepts exactly the positive keys: it throws
    the key error for [key <= 0] and never another error, and the cipher
    it returns has [key] columns. *)
Theorem route_constructor (key : Z) :
  (new key = Err InvalidKey <-> (key <= 0)%Z)
  /\ (forall self,
        new key = OK self <-> (0 < key)%Z /\ Z.of_nat (columns self) = key)
  /\ (forall e, new key = Err e -> e = InvalidKey).
Proof.
  unfold new, getValidKey. destruct (Z.leb_spec key 0) as [Hk|Hk].
  - split; [done|]. split; [|by intros e [= <-]].
    intros self. split; [done|]. intros [? _]. lia.
  - split; [split; [done|lia]|]. split; [|done].
    intros [n]. simpl. split.
    + intros [= <-]. split; [done|lia].
    + intros [_ <-]. by rewrite Nat2Z.id.
Qed.

(** X2.  What [getValidText] returns is the source text with the
    non-letters removed and the letters uppercased: it is not empty, not
    longer than the source, made of the letters ['A'] to ['Z'] only, and
    validating it again returns it unchanged. *)
Theorem route_valid_text_shape text v :
  getValidText text = OK v ->
  v = normalize text
  /\ 0 < length v <= length text
  /\ Forall upper_ascii v
  /\ getValidText v = OK v.
Proof.
  intros [<- Hne]%getValidText_OK.
  pose proof (normalize_valid text) as Hvalid.
  split; [done|]. split; [|split].
  - split; [by destruct (normalize text); [|simpl; lia]|].
    unfold normalize. rewrite length_fmap. apply length_filter.
  - eapply Forall_impl; [exact Hvalid|]. apply upper_ascii_valid.
  - by apply getValidText_fixed.
Qed.

Lemma route_valid_text_shape_witness :
  str "HELLOWORLD" = normalize (str "Hello, world!")
  /\ 0 < length (str "HELLOWORLD") <= length (str "Hello, world!")
  /\ Forall upper_ascii (str "HELLOWORLD")
  /\ getValidText (str "HELLOWORLD") = OK (str "HELLOWORLD").
Proof.
  apply (route_valid_text_shape (str "Hello, world!") (str "HELLOWORLD")).
  vm_compute. reflexivity.
Defined.

(** *** [decrypt] and [encrypt] are inverse to each other *)

(** X3.  The round trip in the other direction: for every column count
    [k > 0] and every text whose normalization is longer than [k],
    [decrypt] succeeds and [encrypt] of its output returns the normalized
    text. *)
Theorem route_decrypt_then_encrypt (k : Z) (text : list ascii) :
  (0 < k)%Z ->
  Z.to_nat k < length (normalize text) ->
  exists self d,
    new k = OK self
    /\ decrypt self text = OK d
    /\ encrypt self d = OK (normalize text).
Proof.
  intros Hk Hlen. set (self := {| columns := Z.to_nat k |}).
  assert (normalize text <> []) as Hne.
  { intros Hnil. rewrite Hnil in Hlen. simpl in Hlen. lia. }
  destruct (decrypt_route_spec self (normalize text))
    as (d & Hd & Hlen_d & Hvalid & Hroute).
  { apply normalize_valid. }
  { simpl. lia. }
  exists self, d. split; [by apply new_OK|].
  split; [by rewrite decrypt_normalize|].
  rewrite <- Hroute. apply encrypt_valid.
  - apply getValidText_fixed; [done|]. intros ->. simpl in Hlen_d. lia.
  - simpl. lia.
Qed.

Lemma route_decrypt_then_encrypt_witness :
  exists self d,
    new 4 = OK self
    /\ decrypt self (str "Route 66, again!") = OK d
    /\ encrypt self d = OK (normalize (str "Route 66, again!")).
Proof.
  apply (route_decrypt_then_encrypt 4 (str "Route 66, again!")); [lia|].
  vm_compute. lia.
Defined.

(** X4.  With a constructed cipher, whenever [decrypt] succeeds its
    output is a permutation of the normalized input, of the same length:
    like [encrypt], [decrypt] only moves letters. *)
Theorem route_decrypt_permutation (k : Z) self text d :
  new k = OK self ->
  decrypt self text = OK d ->
  d ≡ₚ normalize text /\ length d = length (normalize text).
Proof.
  intros Hc%new_columns Hd.
  destruct (decrypt_OK_inv self text d Hc Hd) as (_ & _ & Hlen & _ & Hroute).
  split; [|done]. rewrite <- Hroute. symmetry. by apply letters_by_route_perm.
Qed.

Lemma route_decrypt_permutation_witness :
  str "HELLO" ≡ₚ normalize (str "lo-el-h")
  /\ length (str "HELLO") = length (normalize (str "lo-el-h")).
Proof.
  apply (route_decrypt_permutation 3 {| columns := 3 |} (str "lo-el-h"));
    vm_compute; reflexivity.
Defined.

(** X5.  No two texts with different normalizations have the same
    ciphertext, and none have the same decryption: with a constructed
    cipher, equal results of [encrypt] (or of [decrypt]) come from texts
    with equal normalizations. *)
Theorem route_injective (k : Z) self t1 t2 :
  new k = OK self ->
  (forall e, encrypt self t1 = OK e -> encrypt self t2 = OK e ->
             normalize t1 = normalize t2)
  /\ (forall d, decrypt self t1 = OK d -> decrypt self t2 = OK d ->
                normalize t1 = normalize t2).
Proof.
  intros Hc%new_columns. split.
  - intros e H1 H2.
    destruct (encrypt_OK_inv self t1 e Hc H1) as (_ & Hl1 & He1).
    destruct (encrypt_OK_inv self t2 e Hc H2) as (_ & Hl2 & He2).
    pose proof (decrypt_letters_by_route self (normalize t1)
                  (normalize_valid t1) (conj Hc Hl1)) as D1.
    pose proof (decrypt_letters_by_route self (normalize t2)
                  (normalize_valid t2) (conj Hc Hl2)) as D2.
    rewrite <- He1 in D1. rewrite <- He2 in D2. congruence.
  - intros d H1 H2.
    destruct (decrypt_OK_inv self t1 d Hc H1) as (_ & _ & _ & _ & R1).
    destruct (decrypt_OK_inv self t2 d Hc H2) as (_ & _ & _ & _ & R2).
    congruence.
Qed.

Lemma route_injective_witness :
  (forall e, encrypt {| columns := 3 |} (str "Hello") = OK e ->
             encrypt {| columns := 3 |} (str "HE-LLO") = OK e ->
             normalize (str "Hello") = normalize (str "HE-LLO"))
  /\ (forall d, decrypt {| columns := 3 |} (str "Hello") = OK d ->
                decrypt {| columns := 3 |} (str "HE-LLO") = OK d ->
                normalize (str "Hello") = normalize (str "HE-LLO")).
Proof.
  apply (route_injective 3 {| columns := 3 |} (str "Hello") (str "HE-LLO")).
  vm_compute. reflexivity.
Defined.

(** *** The route, in the words of the class documentation *)

(** X6.  With a constructed cipher, whenever [encrypt] succeeds its
    output is the table read by columns from the rightmost to the
    leftmost, each column from bottom to top, column [j] being the
    letters of the normalized text at the positions [j], [j + columns],
    [j + 2 columns], ... *)
Theorem route_encrypt_by_columns (k : Z) self text e :
  new k = OK self ->
  encrypt self text = OK e ->
  e = read_columns (columns self) (normalize text).
Proof.
  intros Hc%new_columns He.
  destruct (encrypt_OK_inv self text e Hc He) as (_ & _ & ->).
  apply letters_by_route_columns.
Qed.

Lemma route_encrypt_by_columns_witness :
  str "LOELH" = read_columns 3 (normalize (str "Hello")).
Proof.
  apply (route_encrypt_by_columns 3 {| columns := 3 |} (str "Hello"));
    vm_compute; reflexivity.
Defined.

(** X7.  With one column the table is a single column read from bottom
    to top: [encrypt] and [decrypt] both return the normalized text
    reversed (for a text of at least two letters). *)
Theorem route_one_column text :
  1 < length (normalize text) ->
  exists self,
    new 1 = OK self
    /\ encrypt self text = OK (reverse (normalize text))
    /\ decrypt self text = OK (reverse (normalize text)).
Proof.
  intros Hlen. set (self := {| columns := 1 |}). exists self.
  assert (normalize text <> []) as Hne.
  { intros Hnil. rewrite Hnil in Hlen. simpl in Hlen. lia. }
  assert (forall v, letters_by_route 1 v = reverse v) as Hrev.
  { intros v. by rewrite letters_by_route_columns, read_columns_one. }
  split; [done|]. split.
  - rewrite <- Hrev. apply (encrypt_valid self); [|simpl; lia].
    by apply getValidText_OK.
  - rewrite decrypt_normalize by done.
    rewrite <- (reverse_involutive (normalize text)) at 1.
    rewrite <- Hrev. apply (decrypt_letters_by_route self).
    + rewrite reverse_Permutation. apply normalize_valid.
    + rewrite length_reverse. simpl. lia.
Qed.

Lemma route_one_column_witness :
  exists self,
    new 1 = OK self
    /\ encrypt self (str "abc") = OK (reverse (normalize (str "abc")))
    /\ decrypt self (str "abc") = OK (reverse (normalize (str "abc"))).
Proof. apply (route_one_column (str "abc")). vm_compute. lia. Defined.

End TableRouteExtra.

(** ** Polyalphabetic substitution: further properties *)

Module ModAlphaExtra.
Import ModAlpha ModAlphaSpec ModAlphaKeys ModAlphaFacts.

Local Open Scope Z_scope.

(** *** The character helpers *)

Lemma isValidChar_toUpperChar c :
  isValidChar (toUpperChar c) = isValidChar c.
Proof. char_cases. Qed.

Lemma toUpperChar_idem c : toUpperChar (toUpperChar c) = toUpperChar c.
Proof. char_cases. Qed.

(** X8.  The three character helpers agree: a character is a letter of
    the alphabet (in either case) exactly when uppercasing it gives an
    uppercase letter; uppercasing moves a lowercase letter 32 code points
    down (and the lowercase yo to the uppercase yo), changes nothing
    else, and is idempotent. *)
Theorem subst_char_helpers (c : Z) :
  (isValidChar c = true <-> isUpperChar (toUpperChar c) = true)
  /\ (isUpperChar c = true -> isValidChar c = true /\ toUpperChar c = c)
  /\ (isValidChar c = false -> toUpperChar c = c)
  /\ (isValidChar c = true -> isUpperChar c = false ->
      (c <> L_yo /\ toUpperChar c = c - 32)
      \/ (c = L_yo /\ toUpperChar c = L_YO))
  /\ toUpperChar (toUpperChar c) = toUpperChar c.
Proof.
  split; [split; intros H; char_cases|].
  split; [intros H; split; char_cases|].
  split; [intros H; char_cases|].
  split; [intros H1 H2; char_cases|].
  apply toUpperChar_idem.
Qed.

(** *** The constructor *)

Lemma getValidKey_spec s :
  getValidKey s =
    match s with
    | [] => Err EmptyKey
    | _ => if forallb isValidChar s then OK (toUpperChar <$> s)
           else Err InvalidKey
    end.
Proof. destruct s; [done|]. unfold getValidKey. apply validate_key_spec. Qed.

Lemma new_cipher_of skey self :
  new skey = OK self -> self = cipher_of (toUpperChar <$> skey).
Proof.
  intros (validKey & Hkey & Halpha & Hk)%subst_new_OK.
  apply getValidKey_OK in Hkey as (_ & -> & _).
  destruct self as [a k]. simpl in *. by subst.
Qed.

(** X9.  The outcome of the constructor, case by case: "Empty key"
    exactly for the empty key; "Invalid key" exactly for a non-empty key
    with a character that is not a letter of the alphabet; otherwise
    "Weak key" or a cipher, and a cipher exactly when the uppercased key
    has two different letters.  The cipher holds the alphabet positions
    of the uppercased key. *)
Theorem subst_constructor (skey : list Z) :
  (new skey = Err EmptyKey <-> skey = [])
  /\ (new skey = Err InvalidKey
      <-> skey <> [] /\ Exists (fun c => isValidChar c = false) skey)
  /\ (forall self,
        new skey = OK self
        <-> skey <> []
            /\ Forall (fun c => isValidChar c = true) skey
            /\ ~ all_same (toUpperChar <$> skey)
            /\ self = cipher_of (toUpperChar <$> skey))
  /\ (forall e, new skey = Err e ->
                e = EmptyKey \/ e = InvalidKey \/ e = WeakKey).
Proof.
  pose proof (getValidKey_spec skey) as Hspec.
  destruct skey as [|c0 skey']; [by repeat split; try done;
    [intros [? _]|intros (? & _)|intros e [= <-]; auto]|].
  set (skey := c0 :: skey') in *.
  destruct (forallb isValidChar skey) eqn:Hall.
  - apply forallb_Forall in Hall.
    destruct (new_weak skey _ Hspec) as [Hweak Hok].
    assert (~ Exists (fun c => isValidChar c = false) skey) as Hnex.
    { intros (c & Hin & Hc)%Exists_exists.
      rewrite (proj1 (Forall_forall _ _) Hall c Hin) in Hc. done. }
    assert (forall e, new skey = Err e -> e = WeakKey) as Herr.
    { intros e He. destruct (decide (all_same (toUpperChar <$> skey)))
        as [Hs|Hs].
      - apply Hweak in Hs. congruence.
      - destruct (Hok Hs) as [self Hself]. congruence. }
    split; [split; [intros ?%Herr|]; done|].
    split; [split; [intros ?%Herr; done|by intros [_ ?]]|].
    split; [|intros e ?%Herr; auto].
    intros self. split.
    + intros Hnew. split; [done|]. split; [done|].
      split; [|by apply new_cipher_of].
      intros Hs%Hweak. congruence.
    + intros (_ & _ & Hs & ->). destruct (Hok Hs) as [self Hself].
      by rewrite (new_cipher_of _ _ Hself) in Hself.
  - assert (new skey = Err InvalidKey) as Hnew.
    { unfold new. by rewrite Hspec. }
    rewrite Hnew. apply forallb_false_Exists in Hall.
    split; [done|]. split; [done|]. split; [|intros e [= <-]; auto].
    intros self. split; [done|]. intros (_ & Hv & _). exfalso.
    apply Exists_exists in Hall as (c & Hin & Hc).
    rewrite (proj1 (Forall_forall _ _) Hv c Hin) in Hc. done.
Qed.

(** X10.  The invariant of a constructed cipher: the key has as many
    positions as the key text has characters, at least two; every
    position is an alphabet index in [0, 33); and two of them differ. *)
Theorem subst_key_invariant skey self :
  new skey = OK self ->
  length (key self) = length skey
  /\ (2 <= length (key self))%nat
  /\ Forall (fun k => 0 <= k < 33) (key self)
  /\ exists i j a b,
      key self !! i = Some a /\ key self !! j = Some b /\ a <> b.
Proof.
  intros Hnew. pose proof (new_key_ok _ _ Hnew) as (_ & _ & Hrange).
  destruct (subst_new_OK _ _ Hnew) as (validKey & Hkey & _ & Hk).
  destruct (new_weak _ _ Hkey) as [Hweak _].
  pose proof (getValidKey_OK _ _ Hkey) as (_ & Hv & Hup).
  assert (~ all_same validKey) as Hdiff by (intros ?%Hweak; congruence).
  assert (length (key self) = length skey) as Hlen.
  { by rewrite Hk, Hv, !length_fmap. }
  assert (exists j b, validKey !! j = Some b /\ b <> wchar_at validKey 0)
    as (j & b & Hb & Hne).
  { unfold all_same in Hdiff. apply not_Forall_Exists in Hdiff; [|apply _].
    apply Exists_exists in Hdiff as (b & Hin & Hb).
    apply list_elem_of_lookup_1 in Hin as [j Hj]. eauto. }
  destruct validKey as [|a validKey']; [done|].
  set (validKey := a :: validKey') in *.
  change (wchar_at validKey 0) with a in Hne.
  split; [done|]. split; [|split; [done|]].
  - rewrite Hk, length_fmap. destruct j as [|j]; [simpl in Hb; congruence|].
    apply lookup_lt_Some in Hb. simpl in *. lia.
  - exists 0%nat, j, (index a), (index b). rewrite Hk, !list_lookup_fmap, Hb.
    split; [done|]. split; [done|]. intros Heq. apply Hne.
    pose proof (proj1 (Forall_lookup _ _) Hup _ _ Hb) as Hub.
    pose proof (proj1 (Forall_lookup _ _) Hup 0%nat a eq_refl) as Hua.
    destruct (upper_facts a Hua) as (_ & _ & <-).
    destruct (upper_facts b Hub) as (_ & _ & <-). by rewrite Heq.
Qed.

Lemma subst_key_invariant_witness :
  length (key cipher_KLYUCH) = length key_KLYUCH
  /\ (2 <= length (key cipher_KLYUCH))%nat
  /\ Forall (fun k => 0 <= k < 33) (key cipher_KLYUCH)
  /\ exists i j a b,
      key cipher_KLYUCH !! i = Some a /\ key cipher_KLYUCH !! j = Some b
      /\ a <> b.
Proof.
  apply (subst_key_invariant key_KLYUCH cipher_KLYUCH). vm_compute.
  reflexivity.
Defined.

Lemma new_ext k1 k2 : getValidKey k1 = getValidKey k2 -> new k1 = new k2.
Proof. intros H. unfold new. by rewrite H. Qed.

Lemma getValidKey_upper s : getValidKey (toUpperChar <$> s) = getValidKey s.
Proof.
  rewrite !getValidKey_spec.
  assert (forallb isValidChar (toUpperChar <$> s) = forallb isValidChar s)
    as ->.
  { induction s as [|c s IH]; [done|]. csimpl.
    by rewrite isValidChar_toUpperChar, IH. }
  assert (toUpperChar <$> (toUpperChar <$> s) = toUpperChar <$> s) as ->.
  { rewrite <- list_fmap_compose. apply list_fmap_ext.
    intros i c _. apply toUpperChar_idem. }
  by destruct s.
Qed.

(** X11.  The key is read without regard to case: two key texts with the
    same uppercase form give the same result, error or cipher. *)
Theorem subst_key_case_insensitive (k1 k2 : list Z) :
  toUpperChar <$> k1 = toUpperChar <$> k2 -> new k1 = new k2.
Proof.
  intros Hup. apply new_ext.
  by rewrite <- (getValidKey_upper k1), <- (getValidKey_upper k2), Hup.
Qed.

(** "ключ" and "КлЮч" *)
Lemma subst_key_case_insensitive_witness :
  new [1082; 1083; 1102; 1095] = new [1050; 1083; 1070; 1095].
Proof.
  apply (subst_key_case_insensitive
           [1082; 1083; 1102; 1095] [1050; 1083; 1070; 1095]).
  vm_compute. reflexivity.
Defined.

(** *** [decrypt] and [encrypt] are inverse to each other *)

Lemma enc_dec w k : in_alphabet w -> in_alphabet k -> enc (dec w k) k = w.
Proof.
  intros Hw Hk. rewrite enc_spec by (by try apply dec_in_alphabet).
  rewrite dec_spec by done. unfold in_alphabet in *.
  destruct (Z_lt_le_dec w k) as [Hlt|Hge].
  - rewrite (Z.mod_small (w + 33 - k)) by lia.
    replace (w + 33 - k + k) with (w + 1 * 33) by lia.
    rewrite Z.mod_add by lia. apply Z.mod_small. lia.
  - replace (w + 33 - k) with ((w - k) + 1 * 33) by lia.
    rewrite Z.mod_add by lia. rewrite (Z.mod_small (w - k)) by lia.
    replace (w - k + k) with w by lia. apply Z.mod_small. lia.
Qed.

Lemma decrypt_letters_spec self s i c :
  key_ok self -> decrypt_letters self s !! i = Some c ->
  upper c /\ c ∈ numAlpha.
Proof.
  intros Hok Hc. apply list_lookup_imap_Some in Hc as (c0 & Hc0 & ->).
  assert (in_alphabet ((index c0 + 33 - key_at self i) mod 33)) as Hin.
  { apply Z.mod_pos_bound. lia. }
  split; [by apply index_facts|by apply letter_in_numAlpha].
Qed.

Lemma decrypt_letters_upper self s :
  key_ok self -> Forall upper (decrypt_letters self s).
Proof.
  intros Hok. apply Forall_lookup. intros i c Hc.
  by destruct (decrypt_letters_spec self s i c).
Qed.

Lemma encrypt_decrypt_letters self s :
  key_ok self -> Forall upper s ->
  encrypt_letters self (decrypt_letters self s) = s.
Proof.
  intros Hok Hs. apply list_eq. intros i.
  unfold decrypt_letters, encrypt_letters. rewrite !list_lookup_imap.
  destruct (s !! i) as [c|] eqn:Hc; [|done]. simpl. f_equal.
  pose proof (Forall_lookup_1 _ _ _ _ Hs Hc) as Hup.
  destruct (upper_facts c Hup) as (_ & Hidx & Hletter).
  pose proof (key_at_in_alphabet self i Hok) as Hk.
  rewrite <- dec_spec by done.
  destruct (index_facts (dec (index c) (key_at self i))) as [_ ->].
  { by apply dec_in_alphabet. }
  rewrite <- enc_spec by (by try apply dec_in_alphabet).
  by rewrite enc_dec.
Qed.

Lemma normalize_upper_fixed s : Forall upper s -> normalize s = s.
Proof.
  intros Hs. unfold normalize. rewrite TableRouteFacts.filter_all.
  - rewrite <- (list_fmap_id s) at 2. apply fmap_ext_elem.
    intros c Hc. apply toUpperChar_upper.
    by apply (proj1 (Forall_forall _ _) Hs c Hc).
  - intros c Hc. apply isUpperChar_valid.
    by apply (proj1 (Forall_forall _ _) Hs c Hc).
Qed.

Lemma getValidOpenText_spec s :
  getValidOpenText s =
    match normalize s with
    | [] => Err EmptyOpenText
    | t => OK t
    end.
Proof.
  unfold getValidOpenText. rewrite (getValidOpenText_loop s []). cbn [app].
  by destruct (normalize s).
Qed.

Lemma normalize_idem s : normalize (normalize s) = normalize s.
Proof. apply normalize_upper_fixed, normalize_upper. Qed.

Lemma normalize_nil s :
  normalize s = [] <-> Forall (fun c => isValidChar c = false) s.
Proof.
  unfold normalize. induction s as [|c s IH]; [by split|].
  destruct (isValidChar c) eqn:Hc.
  - rewrite filter_cons_True by done. csimpl. split; [done|].
    intros [? _]%Forall_cons. congruence.
  - rewrite filter_cons_False by congruence. rewrite IH, Forall_cons.
    by split; [|intros [_ ?]].
Qed.

Lemma subst_encrypt_OK_inv self text e :
  key_ok self -> encrypt self text = OK e ->
  normalize text <> [] /\ e = encrypt_letters self (normalize text).
Proof.
  intros Hok He. destruct (getValidOpenText text) as [t|err] eqn:Ht.
  2:{ unfold encrypt in He. by rewrite Ht in He. }
  rewrite (subst_encrypt_valid self text t Hok Ht) in He. injection He as <-.
  by apply getValidOpenText_OK in Ht as [-> Hne].
Qed.

Lemma subst_decrypt_OK_inv self s p :
  key_ok self -> decrypt self s = OK p ->
  s <> [] /\ Forall upper s /\ p = decrypt_letters self s.
Proof.
  intros Hok Hp. destruct (getValidCipherText s) as [t|err] eqn:Ht.
  2:{ unfold decrypt in Hp. by rewrite Ht in Hp. }
  apply getValidCipherText_OK in Ht as (-> & Hne & Hup).
  rewrite (subst_decrypt_valid self s Hok Hne Hup) in Hp.
  injection Hp as <-. done.
Qed.

(** X12.  The round trip in the other direction: with a constructed
    cipher, for every non-empty text of uppercase letters of the
    alphabet, [decrypt] succeeds and [encrypt] of its output returns the
    text. *)
Theorem subst_decrypt_then_encrypt skey self s :
  new skey = OK self ->
  s <> [] ->
  Forall (fun c => isUpperChar c = true) s ->
  exists p, decrypt self s = OK p /\ encrypt self p = OK s.
Proof.
  intros Hok%new_key_ok Hne Hup. exists (decrypt_letters self s).
  split; [by apply subst_decrypt_valid|].
  pose proof (decrypt_letters_upper self s Hok) as Hp.
  rewrite <- (encrypt_decrypt_letters self s Hok Hup) at 2.
  apply subst_encrypt_valid; [done|]. apply getValidOpenText_OK.
  split; [by rewrite normalize_upper_fixed|].
  intros Hnil. apply (f_equal length) in Hnil.
  unfold decrypt_letters in Hnil. rewrite length_imap in Hnil.
  by destruct s.
Qed.

Lemma subst_decrypt_then_encrypt_witness :
  exists p,
    decrypt cipher_KLYUCH text_cipher = OK p
    /\ encrypt cipher_KLYUCH p = OK text_cipher.
Proof.
  apply (subst_decrypt_then_encrypt key_KLYUCH cipher_KLYUCH text_cipher).
  - vm_compute. reflexivity.
  - discriminate.
  - repeat constructor.
Defined.

(** X13.  With a constructed cipher, whenever [decrypt] succeeds its
    output consists of uppercase letters of the alphabet and is as long
    as its input. *)
Theorem subst_decrypt_output skey self s p :
  new skey = OK self ->
  decrypt self s = OK p ->
  Forall (fun c => isUpperChar c = true /\ c ∈ numAlpha) p
  /\ length p = length s.
Proof.
  intros Hok%new_key_ok Hp.
  destruct (subst_decrypt_OK_inv self s p Hok Hp) as (_ & _ & ->).
  split; [|apply length_imap].
  apply Forall_lookup. intros i c Hc.
  by apply (decrypt_letters_spec self s i c).
Qed.

Lemma subst_decrypt_output_witness :
  Forall (fun c => isUpperChar c = true /\ c ∈ numAlpha)
         [1055; 1056; 1048; 1042; 1045; 1058]
  /\ length [1055; 1056; 1048; 1042; 1045; 1058] = length text_cipher.
Proof.
  apply (subst_decrypt_output key_KLYUCH cipher_KLYUCH text_cipher);
    vm_compute; reflexivity.
Defined.

(** X14.  The validation of [encrypt]: the only error is "Empty open
    text", raised exactly when the text has no letter of the alphabet
    (the empty text included); characters that are not letters of the
    alphabet and the case of the letters do not matter, the result is
    that of the filtered, uppercased text. *)
Theorem subst_encrypt_validation self text :
  (encrypt self text = Err EmptyOpenText
   <-> Forall (fun c => isValidChar c = false) text)
  /\ (forall e, encrypt self text = Err e -> e = EmptyOpenText)
  /\ encrypt self text = encrypt self (normalize text).
Proof.
  assert (encrypt self text = encrypt self (normalize text)) as Hnorm.
  { unfold encrypt. by rewrite !getValidOpenText_spec, normalize_idem. }
  split; [|split; [|done]].
  - rewrite <- normalize_nil. unfold encrypt.
    rewrite getValidOpenText_spec. by destruct (normalize text).
  - intros e. unfold encrypt. rewrite getValidOpenText_spec.
    destruct (normalize text); [by intros [= <-]|done].
Qed.

(** X15.  A constructed cipher never maps two different texts to one
    result: equal ciphertexts come from texts with the same filtered,
    uppercased form, and equal decryptions from equal ciphertexts. *)
Theorem subst_injective skey self t1 t2 s1 s2 :
  new skey = OK self ->
  (forall e, encrypt self t1 = OK e -> encrypt self t2 = OK e ->
             normalize t1 = normalize t2)
  /\ (forall p, decrypt self s1 = OK p -> decrypt self s2 = OK p -> s1 = s2).
Proof.
  intros Hok%new_key_ok. split.
  - intros e H1 H2.
    destruct (subst_encrypt_OK_inv self t1 e Hok H1) as [_ E1].
    destruct (subst_encrypt_OK_inv self t2 e Hok H2) as [_ E2].
    rewrite <- (decrypt_encrypt_letters self (normalize t1) Hok)
      by apply normalize_upper.
    rewrite <- (decrypt_encrypt_letters self (normalize t2) Hok)
      by apply normalize_upper.
    congruence.
  - intros p H1 H2.
    destruct (subst_decrypt_OK_inv self s1 p Hok H1) as (_ & U1 & E1).
    destruct (subst_decrypt_OK_inv self s2 p Hok H2) as (_ & U2 & E2).
    rewrite <- (encrypt_decrypt_letters self s1 Hok U1).
    rewrite <- (encrypt_decrypt_letters self s2 Hok U2).
    congruence.
Qed.

(** "Привет" and "ПРИ-ВЕТ" both encrypt to "ЪЬЖЩПЮ" under "КЛЮЧ", and
    "ЪЬЖЩПЮ" decrypts to "ПРИВЕТ": every premise of the theorem holds
    here. *)
Lemma subst_injective_witness :
  encrypt cipher_KLYUCH [1055; 1088; 1080; 1074; 1077; 1090] = OK text_cipher
  /\ encrypt cipher_KLYUCH [1055; 1056; 1048; 45; 1042; 1045; 1058]
     = OK text_cipher
  /\ decrypt cipher_KLYUCH text_cipher
     = OK [1055; 1056; 1048; 1042; 1045; 1058]
  /\ normalize [1055; 1088; 1080; 1074; 1077; 1090]
     = normalize [1055; 1056; 1048; 45; 1042; 1045; 1058]
  /\ text_cipher = text_cipher.
Proof.
  assert (encrypt cipher_KLYUCH [1055; 1088; 1080; 1074; 1077; 1090]
          = OK text_cipher) as E1 by (vm_compute; reflexivity).
  assert (encrypt cipher_KLYUCH [1055; 1056; 1048; 45; 1042; 1045; 1058]
          = OK text_cipher) as E2 by (vm_compute; reflexivity).
  assert (decrypt cipher_KLYUCH text_cipher
          = OK [1055; 1056; 1048; 1042; 1045; 1058]) as D
    by (vm_compute; reflexivity).
  destruct (subst_injective key_KLYUCH cipher_KLYUCH
              [1055; 1088; 1080; 1074; 1077; 1090]
              [1055; 1056; 1048; 45; 1042; 1045; 1058]
              text_cipher text_cipher) as [Henc Hdec].
  { vm_compute. reflexivity. }
  split; [exact E1|]. split; [exact E2|]. split; [exact D|].
  split; [exact (Henc _ E1 E2)|exact (Hdec _ D D)].
Defined.

(** *** The alphabet, its index map and the two conversions *)

Lemma NoDup_numAlpha : NoDup numAlpha.
Proof. apply (bool_decide_unpack _). by vm_compute. Qed.

(** The first loop of the constructor, after [k] rounds, over any
    alphabet without repeated letters. *)
Lemma alphaNum_loop (l : list Z) (k : nat) :
  NoDup l -> (k <= length l)%nat ->
  forall c i,
    fold_left (fun m i => <[wchar_at l i := Z.of_nat i]> m)
              (seq 0 k) (∅ : gmap Z Z) !! c = Some i
    <-> exists n, (n < k)%nat /\ i = Z.of_nat n /\ l !! n = Some c.
Proof.
  intros Hnd. induction k as [|k IH]; intros Hk c i.
  - cbn [seq fold_left]. rewrite lookup_empty. split; [done|].
    intros (n & ? & _). lia.
  - rewrite seq_S, fold_left_app. cbn [fold_left Nat.add].
    destruct (lookup_lt_is_Some_2 l k) as [ck Hck]; [lia|].
    unfold wchar_at at 1. rewrite Hck. cbn [default].
    destruct (decide (ck = c)) as [->|Hne].
    + rewrite lookup_insert_eq. split.
      * intros [= <-]. exists k. split; [lia|done].
      * intros (n & Hn & -> & Hc). do 2 f_equal.
        by apply (NoDup_lookup l k n c).
    + rewrite lookup_insert_ne by done. rewrite IH by lia. split.
      * intros (n & ? & ? & ?). exists n. split; [lia|done].
      * intros (n & Hn & -> & Hc). exists n. split; [|done].
        destruct (decide (n = k)) as [->|]; [congruence|lia].
Qed.

Lemma init_alphaNum_spec c i :
  init_alphaNum !! c = Some i
  <-> exists n, i = Z.of_nat n /\ numAlpha !! n = Some c.
Proof.
  unfold init_alphaNum.
  rewrite (alphaNum_loop numAlpha (length numAlpha) NoDup_numAlpha) by done.
  split.
  - intros (n & _ & ? & ?). eauto.
  - intros (n & ? & Hn). exists n. split; [|done]. by eapply lookup_lt_Some.
Qed.

Lemma upper_in_numAlpha c : isUpperChar c = true <-> c ∈ numAlpha.
Proof.
  split.
  - intros Hc. destruct (upper_facts c Hc) as (_ & Hin & <-).
    by apply letter_in_numAlpha.
  - intros [n Hn]%list_elem_of_lookup_1.
    pose proof (lookup_lt_Some _ _ _ Hn) as Hlt.
    change (length numAlpha) with 33%nat in Hlt.
    destruct (index_facts (Z.of_nat n)) as [Hup _].
    { unfold in_alphabet. lia. }
    unfold letter, wchar_at in Hup. rewrite Nat2Z.id, Hn in Hup. done.
Qed.

Lemma init_alphaNum_None c :
  isUpperChar c = false -> init_alphaNum !! c = None.
Proof.
  intros Hc. destruct (init_alphaNum !! c) as [i|] eqn:Hi; [|done].
  apply init_alphaNum_spec in Hi as (n & _ & Hn).
  apply list_elem_of_lookup_2, upper_in_numAlpha in Hn. congruence.
Qed.

(** X16.  The index map a constructed cipher holds is the inverse of the
    alphabet: [alphaNum[c] = i] exactly when [numAlpha[i] = c]; it is
    defined exactly on the characters [isUpperChar] accepts, which are
    exactly the letters of [numAlpha], 33 different letters. *)
Theorem subst_index_map skey self :
  new skey = OK self ->
  (forall c i,
      alphaNum self !! c = Some i
      <-> exists n, i = Z.of_nat n /\ numAlpha !! n = Some c)
  /\ (forall c, is_Some (alphaNum self !! c) <-> isUpperChar c = true)
  /\ (forall c, isUpperChar c = true <-> c ∈ numAlpha)
  /\ NoDup numAlpha
  /\ length numAlpha = 33%nat.
Proof.
  intros (Halpha & _)%new_key_ok. rewrite Halpha.
  split; [apply init_alphaNum_spec|].
  split; [|split; [apply upper_in_numAlpha|split; [apply NoDup_numAlpha|done]]].
  intros c. destruct (isUpperChar c) eqn:Hc.
  - destruct (upper_facts c Hc) as (-> & _). by split.
  - rewrite (init_alphaNum_None c Hc). split; [by intros [? ?]|done].
Qed.

Lemma subst_index_map_witness :
  (forall c i,
      alphaNum cipher_KLYUCH !! c = Some i
      <-> exists n, i = Z.of_nat n /\ numAlpha !! n = Some c)
  /\ (forall c, is_Some (alphaNum cipher_KLYUCH !! c) <-> isUpperChar c = true)
  /\ (forall c, isUpperChar c = true <-> c ∈ numAlpha)
  /\ NoDup numAlpha
  /\ length numAlpha = 33%nat.
Proof.
  apply (subst_index_map key_KLYUCH cipher_KLYUCH). vm_compute. reflexivity.
Defined.

Lemma convert_s_filter s :
  convert_s init_alphaNum s
  = index <$> filter (fun c => isUpperChar c = true) s.
Proof.
  unfold convert_s. rewrite convert_s_loop. cbn [app].
  induction s as [|c s IH]; [done|]. cbn [omap list_omap].
  destruct (isUpperChar c) eqn:Hc.
  - destruct (upper_facts c Hc) as (-> & _).
    rewrite filter_cons_True by done. csimpl. by rewrite IH.
  - rewrite (init_alphaNum_None c Hc), filter_cons_False by congruence.
    apply IH.
Qed.

Lemma convert_v_filter v :
  convert_v v = letter <$> filter (fun n => 0 <= n < 33) v.
Proof.
  unfold convert_v.
  enough (forall acc,
             fold_left (fun result i =>
                          if (0 <=? i) && (i <? Z.of_nat (length numAlpha))
                          then result ++ [wchar_at numAlpha (Z.to_nat i)]
                          else result) v acc
             = acc ++ (letter <$> filter (fun n => 0 <= n < 33) v)) as H.
  { apply (H []). }
  induction v as [|n v IH]; intros acc.
  { cbn. by rewrite app_nil_r. }
  cbn [fold_left]. rewrite IH. change (Z.of_nat (length numAlpha)) with 33.
  destruct (Z.leb_spec 0 n), (Z.ltb_spec n 33); cbn [andb].
  - rewrite filter_cons_True by lia. csimpl. by rewrite <- app_assoc.
  - by rewrite filter_cons_False by lia.
  - by rewrite filter_cons_False by lia.
  - by rewrite filter_cons_False by lia.
Qed.

(** X17.  The two conversions of a constructed cipher: the conversion to
    indices drops every character that is not an uppercase letter of the
    alphabet and maps the others to their positions; the conversion to
    text drops every index outside [0, 33) and maps the others to their
    letters; converting back and forth returns what was kept. *)
Theorem subst_convert skey self (s v : list Z) :
  new skey = OK self ->
  convert_s (alphaNum self) s
  = index <$> filter (fun c => isUpperChar c = true) s
  /\ convert_v v = letter <$> filter (fun n => 0 <= n < 33) v
  /\ convert_v (convert_s (alphaNum self) s)
     = filter (fun c => isUpperChar c = true) s
  /\ convert_s (alphaNum self) (convert_v v)
     = filter (fun n => 0 <= n < 33) v.
Proof.
  intros (Halpha & _)%new_key_ok. rewrite Halpha.
  split; [apply convert_s_filter|]. split; [apply convert_v_filter|].
  assert (Forall upper (filter (fun c => isUpperChar c = true) s)) as Hup.
  { apply Forall_forall. by intros c [? _]%list_elem_of_filter. }
  assert (Forall in_alphabet (filter (fun n => 0 <= n < 33) v)) as Hin.
  { apply Forall_forall. by intros c [? _]%list_elem_of_filter. }
  split.
  - rewrite convert_s_filter.
    rewrite convert_v_in_alphabet by (by apply index_in_alphabet).
    rewrite <- list_fmap_compose.
    rewrite <- (list_fmap_id (filter _ s)) at 2.
    apply fmap_ext_elem. intros c Hc. simpl.
    apply (proj1 (Forall_forall _ _) Hup) in Hc.
    by destruct (upper_facts c Hc) as (_ & _ & ?).
  - rewrite convert_v_filter, convert_s_upper.
    + rewrite <- list_fmap_compose.
      rewrite <- (list_fmap_id (filter _ v)) at 2.
      apply fmap_ext_elem. intros n Hn. simpl.
      apply (proj1 (Forall_forall _ _) Hin) in Hn.
      by destruct (index_facts n Hn).
    + apply Forall_fmap. eapply Forall_impl; [exact Hin|].
      intros n Hn. simpl. by destruct (index_facts n Hn).
Qed.

Lemma subst_convert_witness :
  convert_s (alphaNum cipher_KLYUCH) text_privet
  = index <$> filter (fun c => isUpperChar c = true) text_privet
  /\ convert_v [5; -1; 33; 32]
     = letter <$> filter (fun n => 0 <= n < 33) [5; -1; 33; 32]
  /\ convert_v (convert_s (alphaNum cipher_KLYUCH) text_privet)
     = filter (fun c => isUpperChar c = true) text_privet
  /\ convert_s (alphaNum cipher_KLYUCH) (convert_v [5; -1; 33; 32])
     = filter (fun n => 0 <= n < 33) [5; -1; 33; 32].
Proof.
  apply (subst_convert key_KLYUCH cipher_KLYUCH). vm_compute. reflexivity.
Defined.

(** *** Keys that give the same cipher, and the cipher of two keys *)

Lemma getValidKey_Some s :
  s <> [] -> Forall (fun c => isValidChar c = true) s ->
  getValidKey s = OK (toUpperChar <$> s).
Proof.
  intros Hne Hall. rewrite getValidKey_spec.
  apply forallb_Forall in Hall. rewrite Hall. by destruct s.
Qed.

Lemma new_OK_valid skey self :
  new skey = OK self ->
  skey <> []
  /\ Forall (fun c => isValidChar c = true) skey
  /\ ~ all_same (toUpperChar <$> skey).
Proof.
  intros Hnew. destruct (subst_new_OK _ _ Hnew) as (validKey & Hkey & _).
  destruct (new_weak _ _ Hkey) as [Hweak _].
  rewrite getValidKey_spec in Hkey. destruct skey as [|c skey']; [done|].
  destruct (forallb isValidChar (c :: skey')) eqn:Hall; [|done].
  injection Hkey as <-. apply forallb_Forall in Hall.
  split; [done|]. split; [done|]. intros ?%Hweak. congruence.
Qed.

Lemma key_at_cipher_of validKey i :
  key_at (cipher_of validKey) i
  = int_at (index <$> validKey) (i mod length validKey)%nat.
Proof. unfold key_at, cipher_of. cbn [key]. by rewrite length_fmap. Qed.

Lemma key_at_repeated validKey i :
  validKey <> [] ->
  key_at (cipher_of (validKey ++ validKey)) i = key_at (cipher_of validKey) i.
Proof.
  intros Hne. rewrite !key_at_cipher_of. unfold int_at.
  rewrite fmap_app, length_app.
  set (m := length validKey).
  assert (0 < m)%nat as Hm by (subst m; destruct validKey; [done|simpl; lia]).
  replace (m + m)%nat with (m * 2)%nat by lia.
  rewrite Nat.Div0.mod_mul_r.
  pose proof (Nat.mod_upper_bound i m ltac:(lia)) as Hlt.
  pose proof (Nat.mod_upper_bound (i / m) 2 ltac:(lia)) as Hlt2.
  destruct ((i / m) mod 2)%nat as [|[|?]] eqn:Hq; [| |lia].
  - rewrite Nat.mul_0_r, Nat.add_0_r.
    by rewrite lookup_app_l by (rewrite length_fmap; lia).
  - rewrite Nat.mul_1_r, lookup_app_r by (rewrite length_fmap; lia).
    rewrite length_fmap. do 2 f_equal. subst m. lia.
Qed.

Lemma encrypt_key_at self1 self2 text :
  key_ok self1 -> key_ok self2 ->
  (forall i, key_at self1 i = key_at self2 i) ->
  encrypt self1 text = encrypt self2 text
  /\ decrypt self1 text = decrypt self2 text.
Proof.
  intros Hok1 Hok2 Hkey. split.
  - destruct (getValidOpenText text) as [t|e] eqn:Ht.
    + rewrite !(subst_encrypt_valid _ text t) by done. f_equal.
      apply imap_ext. intros i c _. simpl. by rewrite Hkey.
    + unfold encrypt. by rewrite Ht.
  - destruct (getValidCipherText text) as [t|e] eqn:Ht.
    + apply getValidCipherText_OK in Ht as (-> & Hne & Hup).
      rewrite !subst_decrypt_valid by done. f_equal.
      apply imap_ext. intros i c _. simpl. by rewrite Hkey.
    + unfold decrypt. by rewrite Ht.
Qed.

(** X18.  A key written twice in a row is the same cipher: when the
    constructor accepts a key, it accepts the key repeated, and the two
    ciphers give the same results on every text, errors included. *)
Theorem subst_key_repeated skey self :
  new skey = OK self ->
  exists self2,
    new (skey ++ skey) = OK self2
    /\ forall text,
        encrypt self2 text = encrypt self text
        /\ decrypt self2 text = decrypt self text.
Proof.
  intros Hnew. destruct (new_OK_valid _ _ Hnew) as (Hne & Hvalid & Hdiff).
  assert (getValidKey (skey ++ skey)
          = OK (toUpperChar <$> (skey ++ skey))) as Hkey.
  { apply getValidKey_Some; [by destruct skey|]. by apply Forall_app. }
  destruct (new_weak _ _ Hkey) as [_ Hok].
  destruct Hok as [self2 Hnew2].
  { intros Hsame. apply Hdiff. unfold all_same in *.
    rewrite fmap_app in Hsame. apply Forall_app in Hsame as [Hsame _].
    eapply Forall_impl; [exact Hsame|]. intros c ->. simpl.
    unfold wchar_at. destruct skey; [done|]. done. }
  exists self2. split; [done|]. intros text.
  pose proof (new_key_ok _ _ Hnew) as Hok1.
  pose proof (new_key_ok _ _ Hnew2) as Hok2.
  apply encrypt_key_at; [done..|]. intros i.
  rewrite (new_cipher_of _ _ Hnew), (new_cipher_of _ _ Hnew2), fmap_app.
  apply key_at_repeated. by destruct skey.
Qed.

Lemma subst_key_repeated_witness :
  exists self2,
    new (key_KLYUCH ++ key_KLYUCH) = OK self2
    /\ forall text,
        encrypt self2 text = encrypt cipher_KLYUCH text
        /\ decrypt self2 text = decrypt cipher_KLYUCH text.
Proof.
  apply (subst_key_repeated key_KLYUCH cipher_KLYUCH). vm_compute.
  reflexivity.
Defined.

Lemma key_at_sum self1 self2 self3 i :
  key_ok self1 -> key_ok self2 ->
  length (key self1) = length (key self2) ->
  key self3 = sum_key (key self1) (key self2) ->
  key_at self3 i = (key_at self1 i + key_at self2 i) mod 33.
Proof.
  intros (_ & Hne1 & _) (_ & Hne2 & _) Hlen Hsum. unfold key_at, int_at.
  rewrite Hsum. unfold sum_key. rewrite length_zip_with, <- Hlen, Nat.min_id.
  set (m := (i mod length (key self1))%nat).
  assert (m < length (key self1))%nat as Hm.
  { apply Nat.mod_upper_bound. by destruct (key self1). }
  rewrite lookup_zip_with.
  destruct (lookup_lt_is_Some_2 (key self1) m Hm) as [a ->].
  destruct (lookup_lt_is_Some_2 (key self2) m) as [b ->]; [lia|]. done.
Qed.

(** X19.  Encrypting twice is encrypting once under the sum of the keys:
    for three constructed ciphers whose keys have the same length, the
    third being the position-wise sum modulo 33 of the first two,
    encrypting the output of the first with the second gives what the
    third gives on the text. *)
Theorem subst_encrypt_twice s1 s2 s3 c1 c2 c3 text e1 :
  new s1 = OK c1 -> new s2 = OK c2 -> new s3 = OK c3 ->
  length (key c1) = length (key c2) ->
  key c3 = sum_key (key c1) (key c2) ->
  encrypt c1 text = OK e1 ->
  encrypt c2 e1 = encrypt c3 text.
Proof.
  intros Hok1%new_key_ok Hok2%new_key_ok Hok3%new_key_ok Hlen Hsum He1.
  destruct (subst_encrypt_OK_inv c1 text e1 Hok1 He1) as [Hne ->].
  set (t := normalize text) in *.
  pose proof (normalize_upper text) as Hup. fold t in Hup.
  assert (getValidOpenText text = OK t) as Ht.
  { by apply getValidOpenText_OK. }
  pose proof (encrypt_letters_upper c1 t Hok1 Hup) as Hup1.
  rewrite (subst_encrypt_valid c3 text t Hok3 Ht).
  rewrite (subst_encrypt_valid c2 _ (encrypt_letters c1 t) Hok2).
  2:{ apply getValidOpenText_OK. split; [by rewrite normalize_upper_fixed|].
      intros Hnil. apply (f_equal length) in Hnil.
      unfold encrypt_letters in Hnil. rewrite length_imap in Hnil.
      by destruct t. }
  f_equal. apply list_eq. intros i.
  unfold encrypt_letters. rewrite !list_lookup_imap.
  destruct (t !! i) as [c|] eqn:Hc; [|done]. simpl. do 2 f_equal.
  pose proof (Forall_lookup_1 _ _ _ _ Hup Hc) as Hupc.
  destruct (upper_facts c Hupc) as (_ & Hidx & _).
  pose proof (key_at_in_alphabet c1 i Hok1) as Hk1.
  destruct (index_facts ((index c + key_at c1 i) mod 33)) as [_ ->].
  { apply Z.mod_pos_bound. lia. }
  rewrite (key_at_sum c1 c2 c3 i Hok1 Hok2 Hlen Hsum).
  rewrite Z.add_mod_idemp_l, Z.add_mod_idemp_r by lia.
  f_equal. lia.
Qed.

(** "КЛЮЧ", "ШИФР" and their sum "ГФТЗ" *)
Lemma subst_encrypt_twice_witness :
  encrypt (cipher_of [1064; 1048; 1060; 1056])
          [1066; 1068; 1046; 1065; 1055; 1070; 1050; 1040; 1067]
  = encrypt (cipher_of [1043; 1060; 1058; 1047]) text_privet.
Proof.
  apply (subst_encrypt_twice
           key_KLYUCH [1064; 1048; 1060; 1056] [1043; 1060; 1058; 1047]
           cipher_KLYUCH); vm_compute; reflexivity.
Defined.

End ModAlphaExtra.

(** ** The test driver of the substitution cipher *)

Module ModAlphaMainFacts.
Import ModAlpha ModAlphaSpec ModAlphaMain ModAlphaMainSpec.
Import ModAlphaFacts ModAlphaExtra.

Section CheckFacts.
Variable tolower : Z -> Z.

(** X20.  What [check] prints when it does not corrupt the ciphertext.
    A rejected key gives the error line of the constructor, whatever the
    text; with an accepted key, a text without a letter of the alphabet
    gives the error line "Empty open text"; otherwise [check] prints the
    report with the ciphertext and the filtered, uppercased text as the
    decryption, and the verdict is "[OK]" exactly when the text is equal
    to it, that is when the text has uppercase letters of the alphabet
    only. *)
Theorem check_outcome (Text key testName : list Z) :
  (forall e, new key = Err e ->
             check tolower Text key testName false = failure e)
  /\ (forall cipher, new key = OK cipher ->
        (Forall (fun c => isValidChar c = false) Text ->
         check tolower Text key testName false = failure EmptyOpenText)
        /\ (Exists (fun c => isValidChar c = true) Text ->
            exists cipherText,
              encrypt cipher Text = OK cipherText
              /\ check tolower Text key testName false
                 = report testName key Text cipherText (normalize Text)
                          (bool_decide (Text = normalize Text))))
  /\ (Text = normalize Text <-> Forall (fun c => isUpperChar c = true) Text).
Proof.
  split; [|split].
  - intros e Hnew. unfold check. by rewrite Hnew.
  - intros cipher Hnew. pose proof (new_key_ok _ _ Hnew) as Hok. split.
    + intros Hnone%normalize_nil. unfold check. rewrite Hnew.
      unfold encrypt. rewrite getValidOpenText_spec, Hnone. done.
    + intros Hsome.
      assert (normalize Text <> []) as Hne.
      { intros Hnil%normalize_nil.
        apply Exists_exists in Hsome as (c & Hin & Hc).
        rewrite (proj1 (Forall_forall _ _) Hnil c Hin) in Hc. done. }
      pose proof (normalize_upper Text) as Hup.
      assert (getValidOpenText Text = OK (normalize Text)) as Ht.
      { by apply getValidOpenText_OK. }
      set (e := encrypt_letters cipher (normalize Text)).
      assert (e <> []) as Hene.
      { intros Hnil. apply (f_equal length) in Hnil. unfold e in Hnil.
        unfold encrypt_letters in Hnil. rewrite length_imap in Hnil.
        by destruct (normalize Text). }
      exists e. split; [by apply subst_encrypt_valid|].
      unfold check. rewrite Hnew, (subst_encrypt_valid cipher Text _ Hok Ht).
      cbn [andb]. fold e.
      rewrite (subst_decrypt_valid cipher e Hok Hene)
        by (by apply encrypt_letters_upper).
      unfold e. rewrite decrypt_encrypt_letters by done. done.
  - split.
    + intros ->. apply normalize_upper.
    + intros Hup. symmetry. by apply normalize_upper_fixed.
Qed.

(** X21.  What [check] prints when it corrupts the ciphertext, for a
    [tolower] that takes every uppercase letter of the alphabet out of
    the uppercase letters: with an accepted key and a text that has a
    letter of the alphabet, the only output is the error line "Invalid
    cipher text"; no report and no verdict are printed. *)
Theorem check_corrupted (Text key testName : list Z) cipher :
  (forall c, isUpperChar c = true -> isUpperChar (tolower c) = false) ->
  new key = OK cipher ->
  Exists (fun c => isValidChar c = true) Text ->
  check tolower Text key testName true = failure InvalidCipherText.
Proof.
  intros Hlower Hnew Hsome. pose proof (new_key_ok _ _ Hnew) as Hok.
  assert (normalize Text <> []) as Hne.
  { intros Hnil%normalize_nil.
    apply Exists_exists in Hsome as (c & Hin & Hc).
    rewrite (proj1 (Forall_forall _ _) Hnil c Hin) in Hc. done. }
  pose proof (normalize_upper Text) as Hup.
  assert (getValidOpenText Text = OK (normalize Text)) as Ht.
  { by apply getValidOpenText_OK. }
  pose proof (encrypt_letters_upper cipher _ Hok Hup) as Hupe.
  unfold check. rewrite Hnew, (subst_encrypt_valid cipher Text _ Hok Ht).
  destruct (encrypt_letters cipher (normalize Text)) as [|c0 e] eqn:He.
  { apply (f_equal length) in He. unfold encrypt_letters in He.
    rewrite length_imap in He. by destruct (normalize Text). }
  apply Forall_cons in Hupe as [Hc0 _].
  rewrite bool_decide_eq_false_2 by done. cbn [andb negb].
  change (<[0%nat := tolower (wchar_at (c0 :: e) 0)]> (c0 :: e))
    with (tolower c0 :: e).
  unfold decrypt, getValidCipherText. cbn [forallb].
  by rewrite (Hlower c0 Hc0).
Qed.

End CheckFacts.

Lemma lower_ru_not_upper c :
  isUpperChar c = true -> isUpperChar (lower_ru c) = false.
Proof. unfold lower_ru. intros H. char_cases. Qed.

Lemma check_corrupted_witness :
  check lower_ru text_privet key_KLYUCH [] true = failure InvalidCipherText.
Proof.
  apply (check_corrupted lower_ru text_privet key_KLYUCH [] cipher_KLYUCH).
  - apply lower_ru_not_upper.
  - vm_compute. reflexivity.
  - apply Exists_cons_hd. vm_compute. reflexivity.
Defined.

End ModAlphaMainFacts.
